(** * Option pricing engine: analytic and lattice pricers, price grid

    A shallow embedding of [option_pricing.py] and of the call sites in
    [black_scholes_web_app.py].

    Number model.  Python floats and NumPy float64 values are idealised as
    the real numbers [R]: [np.exp], [np.log], [np.sqrt] are [exp], [ln],
    [sqrt], and [scipy.stats.norm.cdf] is the standard normal distribution
    function, defined below from the integral of its density.  Rounding,
    overflow, [inf] and [nan] of binary64 arithmetic are outside this
    model.  Scalar arguments are Python scalars ([float], [int], [str]);
    for these the operator [/] raises [ZeroDivisionError] on a zero
    divisor, which the model keeps.  Results of NumPy operations are NumPy
    scalars, for which a division by zero only warns and yields [inf] or
    [nan]; the model returns an unspecified real there.  The two ranges
    of [generate_heatmap] are sequences of floats.

    Exceptions by operand type.  Which of its exceptions
    [black_scholes_price] raises depends on the run-time types of its
    arguments: [S / K] raises [ZeroDivisionError] only between two Python
    scalars, and [sigma ** 2] raises [OverflowError] only on a Python
    float whose square is out of the binary64 range.  Module [Scalars]
    embeds the function a second time with typed scalars and keeps both;
    it agrees with the real-number reading wherever that one is exact
    about exceptions. *)

From Stdlib Require Import Reals Lra Psatz ZArith.
From stdpp Require Import base option list strings gmap pretty.

Local Open Scope R_scope.

(** ** Python run-time: exceptions and results *)

Inductive exn : Type :=
  | ValueError (msg : string)
  | NameError (name : string)
  | ZeroDivisionError
  | IndexError
  | TypeError
  | OverflowError.

Inductive result (A : Type) : Type :=
  | Return (a : A)
  | Raise (e : exn).
Arguments Return {A} a.
Arguments Raise {A} e.

#[export] Instance result_ret : MRet result := fun A a => Return a.
#[export] Instance result_bind : MBind result := fun A B f m =>
  match m with
  | Return a => f a
  | Raise e => Raise e
  end.

Definition returns {A} (m : result A) : Prop := exists a, m = Return a.

(** [x / y] on Python scalars. *)
Definition py_truediv (x y : R) : result R :=
  if Req_dec_T y 0 then Raise ZeroDivisionError else Return (x / y).

(** [range(lo, hi)]. *)
Definition py_range (lo hi : Z) : list Z :=
  (fun k => (lo + Z.of_nat k)%Z) <$> seq 0 (Z.to_nat (hi - lo)).

(** [for x in xs: st = body(x, st)], stopping at the first exception. *)
Fixpoint for_each {A St : Type} (xs : list A) (body : A -> St -> result St)
    (st : St) : result St :=
  match xs with
  | [] => Return st
  | x :: xs' => st' ← body x st; for_each xs' body st'
  end.

(** [enumerate(xs)], counting from [i]. *)
Fixpoint enumerate_from {A : Type} (i : nat) (xs : list A) : list (nat * A) :=
  match xs with
  | [] => []
  | x :: xs' => (i, x) :: enumerate_from (S i) xs'
  end.

Definition enumerate {A : Type} (xs : list A) : list (nat * A) :=
  enumerate_from 0 xs.

(** The global names of module [option_pricing]: its three imports and its
    four functions.  A name that is neither here nor a builtin raises
    [NameError] when it is loaded. *)
Definition module_globals : list string :=
  ["np"; "norm"; "plt"; "black_scholes_price"; "binomial_tree_price";
   "generate_heatmap"; "round_values"].

Definition load_global (name : string) : result unit :=
  if decide (name ∈ module_globals) then Return tt else Raise (NameError name).

(** ** The standard normal distribution: [scipy.stats.norm.cdf] *)

Definition norm_pdf (t : R) : R := exp (- (t * t / 2)) / sqrt (2 * PI).

Definition norm_pdf_continuity : continuity norm_pdf.
Proof. unfold norm_pdf. reg. Defined.

Definition norm_pdf_integrable (a b : R) : Riemann_integrable norm_pdf a b.
Proof.
  destruct (Rle_dec a b) as [Hab|Hab].
  - apply continuity_implies_RiemannInt; [exact Hab|].
    intros x _. apply norm_pdf_continuity.
  - apply RiemannInt_P1, continuity_implies_RiemannInt; [lra|].
    intros x _. apply norm_pdf_continuity.
Defined.

(** The integral of the density from [a] to [b] (negated when [b < a]). *)
Definition norm_area (a b : R) : R := RiemannInt (norm_pdf_integrable a b).

(** Half of the mass lies below [0]; the rest is the area from [0] to [x]
    (this is [1/2 * (1 + erf (x / sqrt 2))], the form SciPy evaluates). *)
Definition norm_cdf (x : R) : R := 1 / 2 + norm_area 0 x.

(** ** NumPy arrays of floats, one- and two-dimensional *)

Abbreviation ndarray := (list R).
Abbreviation matrix := (list (list R)).

(** [np.zeros(n)] refuses a negative length. *)
Definition np_zeros (n : Z) : result ndarray :=
  if decide (n < 0)%Z
  then Raise (ValueError "negative dimensions are not allowed")
  else Return (replicate (Z.to_nat n) 0).

(** [np.zeros((n, m))] for lengths obtained from [len]. *)
Definition np_zeros2 (n m : nat) : matrix := replicate n (replicate m 0).

(** An index into an axis of length [len]: negative indices count from the
    end, anything outside [-len, len) raises [IndexError]. *)
Definition np_index (len : nat) (i : Z) : result nat :=
  if decide (0 <= i < Z.of_nat len)%Z then Return (Z.to_nat i)
  else if decide (- Z.of_nat len <= i < 0)%Z then Return (Z.to_nat (Z.of_nat len + i))
  else Raise IndexError.

(** [a[i]] *)
Definition getitem (a : ndarray) (i : Z) : result R :=
  k ← np_index (length a) i;
  match a !! k with
  | Some x => Return x
  | None => Raise IndexError
  end.

(** [a[i] = x] *)
Definition setitem (a : ndarray) (i : Z) (x : R) : result ndarray :=
  k ← np_index (length a) i;
  Return (<[k := x]> a).

(** [p[i, j] = x] for the non-negative indices that [enumerate] yields. *)
Definition setitem2 (p : matrix) (i j : nat) (x : R) : result matrix :=
  match p !! i with
  | Some row =>
      if decide (j < length row)%nat then Return (<[i := <[j := x]> row]> p)
      else Raise IndexError
  | None => Raise IndexError
  end.

(** Element-wise operations.  Every use below combines two arrays of the
    same length, so no broadcasting between arrays is involved. *)
Definition np_sub_scalar (a : ndarray) (k : R) : ndarray := (fun x => x - k) <$> a.
Definition np_rsub_scalar (k : R) (a : ndarray) : ndarray := (fun x => k - x) <$> a.
Definition np_scale (k : R) (a : ndarray) : ndarray := (fun x => k * x) <$> a.
Definition np_add (a b : ndarray) : ndarray := zip_with Rplus a b.
Definition np_maximum (k : R) (a : ndarray) : ndarray := Rmax k <$> a.

(** [a[1:]] and [a[:-1]] *)
Definition slice_from1 (a : ndarray) : ndarray := drop 1 a.
Definition slice_to_last (a : ndarray) : ndarray := take (length a - 1) a.

(** [a[:-1] = b], for [b] of the length of [a[:-1]]: the last element of
    [a] is kept. *)
Definition assign_to_last (a b : ndarray) : ndarray := b ++ drop (length a - 1) a.

(** ** [black_scholes_price] *)

Definition invalid_option_type : exn :=
  ValueError "Invalid option type. Use 'call' or 'put'.".

(** The real-number reading, for Python scalar arguments: [S / K] divides
    two Python scalars; every later division has a NumPy scalar as
    divisor; [sigma ** 2] is the exact square.  The overflow of the power
    and arguments that are NumPy scalars are kept in
    [Scalars.black_scholes_price] below. *)
Definition black_scholes_price (S K T r sigma : R) (option_type : string)
    : result R :=
  m ← py_truediv S K;
  let d1 := (ln m + (r + 0.5 * sigma ^ 2) * T) / (sigma * sqrt T) in
  let d2 := d1 - sigma * sqrt T in
  if decide (option_type = "call") then
    Return (S * norm_cdf d1 - K * exp ((- r) * T) * norm_cdf d2)
  else if decide (option_type = "put") then
    Return (K * exp ((- r) * T) * norm_cdf (- d2) - S * norm_cdf (- d1))
  else
    Raise invalid_option_type.

(** ** [black_scholes_price] on typed scalars *)

(** A numeric argument at run time: a Python [float] (or an [int] that
    converts to one exactly), or a NumPy [float64] scalar, which is what
    iterating over an array yields. *)
Inductive scalar : Type :=
  | py_float (x : R)
  | np_float64 (x : R).

Definition scalar_value (a : scalar) : R :=
  match a with
  | py_float x => x
  | np_float64 x => x
  end.

(** [a / b].  Between two Python scalars a zero divisor raises; as soon as
    one operand is a NumPy scalar the division is NumPy's, which only
    warns, and the quotient is a NumPy scalar. *)
Definition scalar_truediv (a b : scalar) : result scalar :=
  match a, b with
  | py_float x, py_float y =>
      if Req_dec_T y 0 then Raise ZeroDivisionError else Return (py_float (x / y))
  | _, _ => Return (np_float64 (scalar_value a / scalar_value b))
  end.

(** [a ** 2].  On a Python float the power raises [OverflowError] when
    the result is out of the binary64 range; the square of a binary64
    value is out of range exactly when it reaches [2 ^ 1024], that is
    from [2 ^ 512] (about 1.34e154) on in absolute value.  NumPy's power
    only warns. *)
Definition scalar_pow2 (a : scalar) : result scalar :=
  match a with
  | py_float x =>
      if Rle_dec (2 ^ 1024) (x ^ 2) then Raise OverflowError
      else Return (py_float (x ^ 2))
  | np_float64 x => Return (np_float64 (x ^ 2))
  end.

(** The condition under which [S / K] raises. *)
Definition python_zero_division (S K : scalar) : Prop :=
  match S, K with
  | py_float _, py_float y => y = 0
  | _, _ => False
  end.

(** The condition under which [sigma ** 2] raises. *)
Definition python_pow_overflow (sigma : scalar) : Prop :=
  match sigma with
  | py_float x => 2 ^ 1024 <= x ^ 2
  | np_float64 _ => False
  end.

Module Scalars.

(** Lines 7 to 17 with the operand types kept.  In line 7 the quotient
    [S / K] is evaluated before [sigma ** 2].  No other operation of the
    function raises: [+], [*] and unary [-] on Python floats yield [inf]
    or [nan] without an exception, and [np.log], [np.sqrt], [np.exp],
    [norm.cdf] and every operator with a NumPy scalar operand only
    warn. *)
Definition black_scholes_price (S K T r sigma : scalar) (option_type : string)
    : result R :=
  m ← scalar_truediv S K;
  s2 ← scalar_pow2 sigma;
  let d1 := (ln (scalar_value m)
             + (scalar_value r + 0.5 * scalar_value s2) * scalar_value T)
            / (scalar_value sigma * sqrt (scalar_value T)) in
  let d2 := d1 - scalar_value sigma * sqrt (scalar_value T) in
  if decide (option_type = "call") then
    Return (scalar_value S * norm_cdf d1
            - scalar_value K * exp ((- scalar_value r) * scalar_value T) * norm_cdf d2)
  else if decide (option_type = "put") then
    Return (scalar_value K * exp ((- scalar_value r) * scalar_value T) * norm_cdf (- d2)
            - scalar_value S * norm_cdf (- d1))
  else
    Raise invalid_option_type.

End Scalars.

(** ** [binomial_tree_price] *)

(** One pass of the backward loop:
    [values[:-1] = disc * (q * values[1:] + (1 - q) * values[:-1])]. *)
Definition backward_step (disc q : R) (values : ndarray) : ndarray :=
  assign_to_last values
    (np_scale disc
       (np_add (np_scale q (slice_from1 values))
               (np_scale (1 - q) (slice_to_last values)))).

(** [T / steps] divides a Python float by a Python int. *)
Definition binomial_tree_price (S K T r sigma : R) (steps : Z)
    (option_type : string) : result R :=
  dt ← py_truediv T (IZR steps);
  let u := exp (sigma * sqrt dt) in
  let d := 1 / u in
  let q := (exp (r * dt) - d) / (u - d) in
  prices ← np_zeros (steps + 1);
  prices ← setitem prices 0 (S * powerRZ d steps);
  prices ← for_each (py_range 1 (steps + 1))
              (fun i prices =>
                 p ← getitem prices (i - 1);
                 setitem prices i (p * u / d))
              prices;
  let values :=
    np_maximum 0 (if decide (option_type = "call")
                  then np_sub_scalar prices K
                  else np_rsub_scalar K prices) in
  values ← for_each (py_range 0 steps)
              (fun _ values => Return (backward_step (exp ((- r) * dt)) q values))
              values;
  getitem values 0.

(** ** [generate_heatmap] *)

(** A Python callable as [generate_heatmap] uses one: its [__name__], and
    what it does when called with six and with seven positional
    arguments. *)
Record callable : Type := {
  fn_name : string;
  fn_call6 : R -> R -> R -> R -> R -> string -> result R;
  fn_call7 : R -> R -> R -> R -> R -> Z -> string -> result R
}.

(** The two pricers as callables.  A seventh positional argument is one
    too many for [black_scholes_price]; with six, [binomial_tree_price]
    binds the option type to [steps] and fails on [T / steps]. *)
Definition black_scholes_fn : callable := {|
  fn_name := "black_scholes_price";
  fn_call6 := black_scholes_price;
  fn_call7 := fun _ _ _ _ _ _ _ => Raise TypeError
|}.

Definition binomial_tree_fn : callable := {|
  fn_name := "binomial_tree_price";
  fn_call6 := fun _ _ _ _ _ _ => Raise TypeError;
  fn_call7 := binomial_tree_price
|}.

(** What [plt.subplots] hands back, and what is drawn on it. *)
Record figure : Type := { figsize : R * R; drawn : matrix }.

Definition plt_subplots (size : R * R) : figure :=
  {| figsize := size; drawn := [] |}.

Definition default_steps : Z := 50.
Definition default_option_type : string := "call".

(** Lines 41-48: the matrix [prices] when the two loops are left.  An
    omitted keyword argument is [None] and takes its default. *)
Definition heatmap_prices (S_range vol_range : list R) (K T r : R)
    (model_func : callable) (model_params : option (gmap string Z))
    (steps : option Z) (option_type : option string) : result matrix :=
  let steps := default default_steps steps in
  let option_type := default default_option_type option_type in
  let prices := np_zeros2 (length vol_range) (length S_range) in
  for_each (enumerate vol_range)
    (fun row prices =>
       let i := row.1 in let sigma := row.2 in
       for_each (enumerate S_range)
         (fun col prices =>
            let j := col.1 in let S := col.2 in
            if decide (fn_name model_func = "binomial_tree_price") then
              p ← fn_call7 model_func S K T r sigma steps option_type;
              setitem2 prices i j p
            else
              p ← fn_call6 model_func S K T r sigma option_type;
              setitem2 prices i j p)
         prices)
    prices.

(** The pricer call of lines 45-48 alone, without the store. *)
Definition cell_price (model_func : callable) (K T r : R) (steps : Z)
    (option_type : string) (S sigma : R) : result R :=
  if decide (fn_name model_func = "binomial_tree_price")
  then fn_call7 model_func S K T r sigma steps option_type
  else fn_call6 model_func S K T r sigma option_type.

(** The whole function.  The name [sns] is looked up before any argument
    of [sns.heatmap] is evaluated; lines 54-67 only set ticks, labels and
    the title of the axes. *)
Definition generate_heatmap (S_range vol_range : list R) (K T r : R)
    (model_func : callable) (model_params : option (gmap string Z))
    (steps : option Z) (option_type : option string) : result figure :=
  prices ← heatmap_prices S_range vol_range K T r model_func model_params
              steps option_type;
  let fig := plt_subplots (6, 5) in
  _ ← load_global "sns";
  Return {| figsize := figsize fig; drawn := prices |}.

(** ** The call sites in [black_scholes_web_app.py] *)

(** [model_params = {"binomial_tree_price": {"steps": steps}}] *)
Definition app_model_params (steps : Z) : gmap string (gmap string Z) :=
  {[ "binomial_tree_price" := {[ "steps" := steps ]} ]}.

(** [example_params = model_params.get(model_func.__name__, {})] *)
Definition app_example_params (steps : Z) (model_func : callable)
    : gmap string Z :=
  default ∅ (app_model_params steps !! fn_name model_func).

(** [generate_heatmap(S_range, vol_range, K, T, r, model_func,
    example_params, option_type=...)] of lines 73 and 78. *)
Definition app_heatmap (S_range vol_range : list R) (K T r : R) (steps : Z)
    (model_func : callable) (option_type : string) : result figure :=
  generate_heatmap S_range vol_range K T r model_func
    (Some (app_example_params steps model_func)) None (Some option_type).

Definition app_heatmap_prices (S_range vol_range : list R) (K T r : R)
    (steps : Z) (model_func : callable) (option_type : string)
    : result matrix :=
  heatmap_prices S_range vol_range K T r model_func
    (Some (app_example_params steps model_func)) None (Some option_type).

(** ** The specification's formulas, written as the specification gives them *)

(** The two option types of the data model and how the code spells them. *)
Inductive option_kind : Type := Call | Put.

Definition kind_name (k : option_kind) : string :=
  match k with
  | Call => "call"
  | Put => "put"
  end.

(** AnalyticPricer (4.1). *)
Definition spec_d1 (S K T r sigma : R) : R :=
  (ln (S / K) + (r + sigma ^ 2 / 2) * T) / (sigma * sqrt T).

Definition spec_d2 (S K T r sigma : R) : R :=
  spec_d1 S K T r sigma - sigma * sqrt T.

Definition spec_analytic (k : option_kind) (S K T r sigma : R) : R :=
  let d1 := spec_d1 S K T r sigma in
  let d2 := spec_d2 S K T r sigma in
  match k with
  | Call => S * norm_cdf d1 - K * exp (- (r * T)) * norm_cdf d2
  | Put => K * exp (- (r * T)) * norm_cdf (- d2) - S * norm_cdf (- d1)
  end.

(** LatticePricer (4.2): the lattice constants. *)
Definition spec_dt (T : R) (N : nat) : R := T / INR N.
Definition spec_u (sigma dt : R) : R := exp (sigma * sqrt dt).
Definition spec_d (sigma dt : R) : R := 1 / spec_u sigma dt.
Definition spec_q (r sigma dt : R) : R :=
  (exp (r * dt) - spec_d sigma dt) / (spec_u sigma dt - spec_d sigma dt).

(** Phase 1: the [N + 1] terminal spots [S * d^N * (u/d)^i] and their
    payoffs. *)
Definition spec_payoff (k : option_kind) (K spot : R) : R :=
  match k with
  | Call => Rmax 0 (spot - K)
  | Put => Rmax 0 (K - spot)
  end.

Definition spec_terminal_spot (S u d : R) (N i : nat) : R :=
  S * d ^ N * (u / d) ^ i.

Definition spec_terminal_layer (k : option_kind) (S K u d : R) (N : nat)
    : list R :=
  (fun i => spec_payoff k K (spec_terminal_spot S u d N i)) <$> seq 0 (N + 1).

(** Phase 2: one backward step turns a layer of size [m] into one of size
    [m - 1]; [N] steps leave a single value. *)
Fixpoint spec_collapse (disc q : R) (layer : list R) : list R :=
  match layer with
  | v :: (v' :: _) as rest =>
      disc * (q * v' + (1 - q) * v) :: spec_collapse disc q rest
  | _ => []
  end.

Definition spec_lattice_layers (k : option_kind) (S K T r sigma : R)
    (N steps_done : nat) : list R :=
  let dt := spec_dt T N in
  let u := spec_u sigma dt in
  let d := spec_d sigma dt in
  Nat.iter steps_done (spec_collapse (exp (- (r * dt))) (spec_q r sigma dt))
    (spec_terminal_layer k S K u d N).

(** GridEvaluator (4.3): one pricer call per cell, rows over the
    volatilities and columns over the spots, failing at the first cell
    whose pricer fails. *)
Definition spec_grid (price : R -> R -> result R) (S_range vol_range : list R)
    : result matrix :=
  mapM (fun sigma => mapM (fun S => price S sigma) S_range) vol_range.

(** ** Intermediate states of [binomial_tree_price] *)

(** The spot that the forward loop leaves at index [i], starting from
    [prices[0] = p0]. *)
Definition spot_at (u d p0 : R) (i : nat) : R := p0 * (u / d) ^ i.

(** The terminal payoffs as the code selects them: everything but "call"
    takes the second branch of the conditional expression. *)
Definition code_terminal_values (option_type : string) (S K u d : R) (N : nat)
    : ndarray :=
  let prices := spot_at u d (S * d ^ N) <$> seq 0 (N + 1) in
  np_maximum 0 (if decide (option_type = "call")
                then np_sub_scalar prices K
                else np_rsub_scalar K prices).

(** ** Fixed-point arithmetic for bounds on [exp] *)

(** Eighteen decimal digits after the point. *)
Definition scale : Z := 10 ^ 18.

(** [k] squarings of [a / scale], rounded down and rounded up. *)
Fixpoint square_down (k : nat) (a : Z) : Z :=
  match k with
  | O => a
  | S k' => square_down k' (a * a / scale)
  end.

Fixpoint square_up (k : nat) (a : Z) : Z :=
  match k with
  | O => a
  | S k' => square_up k' ((a * a + scale - 1) / scale)
  end.

(** ** The lattice as a tree of node values *)

(** One backward step on a layer given by its index function. *)
Definition tree_step (disc q : R) (f : nat -> R) (i : nat) : R :=
  disc * (q * f (S i) + (1 - q) * f i).

(** The value at node [j] after [n] backward steps. *)
Definition tree_node (disc q : R) (n : nat) (f : nat -> R) (j : nat) : R :=
  Nat.iter n (tree_step disc q) f j.

(** The terminal payoff as line 31 selects it. *)
Definition code_payoff (option_type : string) (K spot : R) : R :=
  if decide (option_type = "call") then Rmax 0 (spot - K) else Rmax 0 (K - spot).

Definition sum_list (l : list R) : R := foldr Rplus 0 l.

(** The risk-neutral probability of [i] up-moves in [n] steps. *)
Definition binomial_weight (q : R) (n i : nat) : R :=
  C n i * q ^ i * (1 - q) ^ (n - i).

(** ** NumPy ranges and rounding *)

(** The least integer not below [x]. *)
Definition Rceil (x : R) : Z := (- Int_part (- x))%Z.

(** [np.arange(start, stop)] on floats: [ceil(stop - start)] values
    [start + k]. *)
Definition np_arange (start stop : R) : list R :=
  (fun k => start + INR k) <$> seq 0 (Z.to_nat (Rceil (stop - start))).

(** [np.linspace(start, stop, num)]: [num] evenly spaced samples, the last
    one set to [stop]. *)
Definition np_linspace (start stop : R) (num : Z) : result (list R) :=
  if decide (num < 0)%Z then
    Raise (ValueError ("Number of samples, " +:+ pretty num
                       +:+ ", must be non-negative."))
  else
    let div := (num - 1)%Z in
    let delta := stop - start in
    let y : list R :=
      if decide (0 < div)%Z
      then (fun i => INR i * (delta / IZR div) + start) <$> seq 0 (Z.to_nat num)
      else (fun i => INR i * delta + start) <$> seq 0 (Z.to_nat num) in
    Return (if decide (1 < num)%Z then <[(Z.to_nat num - 1)%nat := stop]> y else y).

(** [np.rint]: the nearest integer, the even one of two equally near. *)
Definition np_rint (x : R) : Z :=
  let n := Int_part x in
  if Rlt_dec (x - IZR n) (1 / 2) then n
  else if Rlt_dec (1 / 2) (x - IZR n) then (n + 1)%Z
  else if Z.even n then n else (n + 1)%Z.

(** [np.round(x, 2)] scales by 100, rounds to an integer and scales back. *)
Definition np_round2 (x : R) : R := IZR (np_rint (x * 100)) / 100.

(** ** [round_values] *)

Definition round_values (arr : list R) : list R := np_round2 <$> arr.

(** ** The script [black_scholes_web_app.py] *)

(** What the script shows; the two prices are shown with two decimals. *)
Inductive st_event : Type :=
  | st_title (body : string)
  | st_markdown (body : string)
  | st_sidebar_header (body : string)
  | st_subheader (body : string)
  | st_success (call_price : R)
  | st_error (put_price : R)
  | st_pyplot (fig : figure).

(** A run of the script: what has been shown so far is kept when an
    exception ends the run. *)
Record script (A : Type) : Type :=
  Script { run_script : list st_event -> list st_event * result A }.
Arguments Script {A} _.
Arguments run_script {A} _ _.

#[export] Instance script_ret : MRet script := fun A a =>
  Script (fun shown => (shown, Return a)).
#[export] Instance script_bind : MBind script := fun A B f m =>
  Script (fun shown =>
    match run_script m shown with
    | (shown', Return a) => run_script (f a) shown'
    | (shown', Raise e) => (shown', Raise e)
    end).

Definition display (ev : st_event) : script unit :=
  Script (fun shown => (shown ++ [ev], Return tt)).

Definition lift {A : Type} (m : result A) : script A :=
  Script (fun shown => (shown, m)).

Fixpoint script_for {A : Type} (xs : list A) (body : A -> script unit)
    : script unit :=
  match xs with
  | [] => mret tt
  | x :: xs' => _ ← body x; script_for xs' body
  end.

(** [try: attempt except TypeError: handler] *)
Definition except_TypeError {A : Type} (attempt handler : result A) : result A :=
  match attempt with
  | Raise TypeError => handler
  | _ => attempt
  end.

Module App.

(** The values of the sidebar widgets. *)
Record inputs : Type := {
  S_spot_price : R;
  S_steps : R;
  vol_min : R;
  vol_max : R;
  vol_steps : Z;
  K : R;
  T : R;
  r : R;
  steps : Z
}.

(** The [value=] of each widget. *)
Definition defaults : inputs := {|
  S_spot_price := 100; S_steps := 5;
  vol_min := 0.1; vol_max := 0.3; vol_steps := 20;
  K := 100; T := 1; r := 0.05; steps := 50
|}.

(** The bounds that the widgets of lines 26-36 enforce. *)
Definition in_range (inp : inputs) : Prop :=
  1 <= S_spot_price inp /\
  1 <= S_steps inp <= 10 /\
  0.1 <= vol_min inp /\
  vol_min inp <= vol_max inp /\
  (10 <= vol_steps inp <= 50)%Z /\
  0.01 <= K inp /\
  0.01 <= T inp /\
  0 <= r inp <= 1 /\
  (10 <= steps inp <= 200)%Z.

(** An entry of [models]: its label, the function, and what the function
    does when called with five positional arguments, the keyword
    arguments [**params] and the keyword [option_type]. *)
Record model : Type := {
  label : string;
  func : callable;
  call_kw : R -> R -> R -> R -> R -> gmap string Z -> string -> result R
}.

(** [black_scholes_price] has no parameter that [params] could name. *)
Definition black_scholes : model := {|
  label := "Black-Scholes";
  func := black_scholes_fn;
  call_kw := fun S K T r sigma params option_type =>
    if decide (params = ∅) then black_scholes_price S K T r sigma option_type
    else Raise TypeError
|}.

(** [binomial_tree_price] needs [steps] from [params] and nothing else. *)
Definition binomial_tree : model := {|
  label := "Binomial Tree";
  func := binomial_tree_fn;
  call_kw := fun S K T r sigma params option_type =>
    match params !! "steps" with
    | Some n =>
        if decide (params = {[ "steps" := n ]})
        then binomial_tree_price S K T r sigma n option_type
        else Raise TypeError
    | None => Raise TypeError
    end
|}.

Definition models : list model := [black_scholes; binomial_tree].

(** Line 39. *)
Definition S_range (inp : inputs) : list R :=
  np_arange (S_spot_price inp - S_steps inp) (S_spot_price inp + S_steps inp + 1).

(** Line 40. *)
Definition vol_range (inp : inputs) : result (list R) :=
  np_linspace (vol_min inp) (vol_max inp) (vol_steps inp).

(** Lines 57-67: the two example prices at S = 100, sigma = 0.2. *)
Definition example_prices (inp : inputs) (m : model) : result (R * R) :=
  let example_S := 100 in
  let example_sigma := 0.2 in
  let example_params := app_example_params (steps inp) (func m) in
  except_TypeError
    (call_price ← call_kw m example_S (K inp) (T inp) (r inp) example_sigma
                    example_params "call";
     put_price ← call_kw m example_S (K inp) (T inp) (r inp) example_sigma
                   example_params "put";
     Return (call_price, put_price))
    (call_price ← call_kw m example_S (K inp) (T inp) (r inp) example_sigma
                    ∅ "call";
     put_price ← call_kw m example_S (K inp) (T inp) (r inp) example_sigma
                   ∅ "put";
     Return (call_price, put_price)).

(** Lines 54-79: the body of the loop over [models]. *)
Definition model_section (inp : inputs) (S_range vol_range : list R) (m : model)
    : script unit :=
  _ ← display (st_subheader (label m +:+ " Model"));
  prices ← lift (example_prices inp m);
  _ ← display (st_success prices.1);
  call_heatmap_fig ← lift (app_heatmap S_range vol_range (K inp) (T inp) (r inp)
                             (steps inp) (func m) "call");
  _ ← display (st_pyplot call_heatmap_fig);
  _ ← display (st_error prices.2);
  put_heatmap_fig ← lift (app_heatmap S_range vol_range (K inp) (T inp) (r inp)
                            (steps inp) (func m) "put");
  display (st_pyplot put_heatmap_fig).

(** The script from the title to the footer. *)
Definition main (inp : inputs) : script unit :=
  _ ← display (st_title "📊 Option Pricing Heatmaps");
  _ ← display (st_markdown "
This application generates heatmaps for call and put option prices using various pricing models.
");
  _ ← display (st_sidebar_header "Input Parameters");
  let S_range := S_range inp in
  vol_range ← lift (vol_range inp);
  _ ← script_for models (model_section inp S_range vol_range);
  _ ← display (st_markdown "---");
  display (st_markdown "Created by [Marek Pizner](https://www.linkedin.com/in/marek-pizner-33a7a5150/)").

End App.

(** The events up to the first heatmap. *)
Definition app_shown_before_heatmap (call_price : R) : list st_event :=
  [st_title "📊 Option Pricing Heatmaps";
   st_markdown "
This application generates heatmaps for call and put option prices using various pricing models.
";
   st_sidebar_header "Input Parameters";
   st_subheader "Black-Scholes Model";
   st_success call_price].

(** * Properties *)

(** ** The result monad *)

Lemma returns_Return {A} (a : A) : returns (Return a).
Proof. by exists a. Qed.


Lemma bind_Return {A B} (a : A) (f : A -> result B) : (Return a ≫= f) = f a.
Proof. done. Qed.

Lemma bind_Raise {A B} (e : exn) (f : A -> result B) : (Raise e ≫= f) = Raise e.
Proof. done. Qed.

Lemma py_truediv_nonzero x y : y <> 0 -> py_truediv x y = Return (x / y).
Proof. intros Hy. unfold py_truediv. by destruct (Req_dec_T y 0). Qed.

Lemma py_truediv_zero x : py_truediv x 0 = Raise ZeroDivisionError.
Proof. unfold py_truediv. by destruct (Req_dec_T 0 0). Qed.

(** ** The run-time model on small inputs *)

Example py_range_1_4 : py_range 1 4 = [1; 2; 3]%Z.
Proof. reflexivity. Qed.

Example py_range_empty : py_range 1 0 = [].
Proof. reflexivity. Qed.

Example enumerate_two : enumerate [0.1; 0.2] = [(0%nat, 0.1); (1%nat, 0.2)].
Proof. reflexivity. Qed.

Example np_index_last : np_index 3 (-1) = Return 2%nat.
Proof. reflexivity. Qed.

Example getitem_past_end : getitem [1; 2] 2 = Raise IndexError.
Proof. reflexivity. Qed.

Example setitem_negative : setitem [1; 2; 3] (-3) 7 = Return [7; 2; 3].
Proof. reflexivity. Qed.

Example np_zeros_negative :
  np_zeros (-1) = Raise (ValueError "negative dimensions are not allowed").
Proof. reflexivity. Qed.

Example setitem2_cell :
  setitem2 (np_zeros2 2 2) 1 0 5 = Return [[0; 0]; [5; 0]].
Proof. reflexivity. Qed.

Example assign_to_last_keeps_last :
  assign_to_last [1; 2; 3] [8; 9] = [8; 9; 3].
Proof. reflexivity. Qed.

Example load_global_np : load_global "np" = Return tt.
Proof. reflexivity. Qed.

Example app_example_params_lattice :
  app_example_params 120 binomial_tree_fn = {[ "steps" := 120%Z ]}.
Proof. reflexivity. Qed.

Example app_example_params_analytic :
  app_example_params 120 black_scholes_fn = ∅.
Proof. reflexivity. Qed.

(** ** The normal distribution function: symmetry and derivative *)

Lemma norm_pdf_even t : norm_pdf (- t) = norm_pdf t.
Proof. unfold norm_pdf. do 2 f_equal. lra. Qed.

Lemma norm_area_swap a b : norm_area a b = - norm_area b a.
Proof. unfold norm_area. apply RiemannInt_P8. Qed.

Lemma norm_area_chasles a b c : norm_area a b + norm_area b c = norm_area a c.
Proof. unfold norm_area. apply RiemannInt_P26. Qed.

Lemma norm_area_refl a : norm_area a a = 0.
Proof. unfold norm_area. apply RiemannInt_P9. Qed.

(** On [[-x, x]] the functions [t |-> area (-x) t] and
    [t |-> - area (-x) (-t)] have the same derivative, the density, so
    they differ by a constant; comparing them at [0] and at [x] gives the
    equality. *)
Lemma norm_area_mirror_nonneg x : 0 <= x -> norm_area (- x) 0 = norm_area 0 x.
Proof.
  intros Hx.
  assert (h : - x <= x) by lra.
  assert (C0 : forall t, - x <= t <= x -> continuity_pt norm_pdf t)
    by (intros t _; apply norm_pdf_continuity).
  set (G := primitive h (FTC_P1 h C0)).
  assert (HG : antiderivative norm_pdf G (- x) x) by apply RiemannInt_P29.
  assert (HGv : forall t, - x <= t <= x -> G t = norm_area (- x) t).
  { intros t [Ht1 Ht2]. unfold G, primitive.
    destruct (Rle_dec (- x) t) as [?|[]]; [|exact Ht1].
    destruct (Rle_dec t x) as [?|[]]; [|exact Ht2].
    apply RiemannInt_P5. }
  assert (HH : antiderivative norm_pdf (fun t => - G (- t)) (- x) x).
  { split; [|exact h]. intros t Ht.
    assert (Hd : derivable_pt_lim (fun t => - G (- t)) t (norm_pdf t)).
    { assert (Hg : derivable_pt_lim G (- t) (norm_pdf (- t)))
        by (apply RiemannInt_P28; lra).
      rewrite norm_pdf_even in Hg.
      replace (norm_pdf t) with (- (norm_pdf t * -1)) by ring.
      apply (derivable_pt_lim_opp (fun t => G (- t))).
      apply (derivable_pt_lim_comp (fun t => - t) G); [|exact Hg].
      replace (-1) with (- 1) by ring.
      apply (derivable_pt_lim_opp id), derivable_pt_lim_id. }
    exists (exist _ _ Hd). reflexivity. }
  destruct (antiderivative_Ucte _ _ _ _ _ HG HH) as [c Hc].
  pose proof (Hc 0 ltac:(lra)) as H0. pose proof (Hc x ltac:(lra)) as H1.
  simpl in H0, H1. rewrite Ropp_0 in H0.
  rewrite !HGv in H0, H1 by lra.
  rewrite (HGv (- x)), norm_area_refl in H1 by lra.
  pose proof (norm_area_chasles (- x) 0 x). lra.
Qed.

Lemma norm_area_mirror x : norm_area 0 (- x) = - norm_area 0 x.
Proof.
  destruct (Rle_dec 0 x) as [Hx|Hx].
  - rewrite norm_area_swap, norm_area_mirror_nonneg by exact Hx. reflexivity.
  - pose proof (norm_area_mirror_nonneg (- x) ltac:(lra)) as H.
    rewrite Ropp_involutive in H. rewrite <- H, (norm_area_swap x 0). lra.
Qed.

Lemma norm_cdf_symm x : norm_cdf (- x) = 1 - norm_cdf x.
Proof. unfold norm_cdf. rewrite norm_area_mirror. lra. Qed.

Lemma norm_cdf_0 : norm_cdf 0 = 1 / 2.
Proof. unfold norm_cdf. rewrite norm_area_refl. lra. Qed.

(** The distribution function is the antiderivative of the density that
    takes the value 1/2 at 0. *)
Lemma norm_cdf_derivative x : derivable_pt_lim norm_cdf x (norm_pdf x).
Proof.
  set (a := Rmin 0 x - 1). set (b := Rmax 0 x + 1).
  pose proof (Rmin_l 0 x). pose proof (Rmin_r 0 x).
  pose proof (Rmax_l 0 x). pose proof (Rmax_r 0 x).
  assert (h : a <= b) by (unfold a, b; lra).
  assert (C0 : forall t, a <= t <= b -> continuity_pt norm_pdf t)
    by (intros t _; apply norm_pdf_continuity).
  set (G := primitive h (FTC_P1 h C0)).
  assert (HGv : forall t, a <= t <= b -> norm_cdf t = 1 / 2 - norm_area a 0 + G t).
  { intros t [Ht1 Ht2]. unfold G, primitive.
    destruct (Rle_dec a t) as [?|[]]; [|exact Ht1].
    destruct (Rle_dec t b) as [?|[]]; [|exact Ht2].
    rewrite (RiemannInt_P5 _ (norm_pdf_integrable a t)).
    fold (norm_area a t). unfold norm_cdf.
    pose proof (norm_area_chasles a 0 t). lra. }
  assert (HG : derivable_pt_lim G x (norm_pdf x))
    by (apply RiemannInt_P28; unfold a, b; lra).
  intros eps Heps. destruct (HG eps Heps) as [delta Hdelta].
  assert (Hmin : 0 < Rmin delta 1)
    by (apply Rmin_glb_lt; [apply cond_pos|lra]).
  exists (mkposreal _ Hmin). intros k Hk0 Hk. simpl in Hk.
  pose proof (Rmin_l delta 1). pose proof (Rmin_r delta 1).
  assert (Hk1 : Rabs k < 1) by lra.
  apply Rabs_def2 in Hk1.
  rewrite (HGv (x + k)), (HGv x) by (unfold a, b; lra).
  replace (1 / 2 - norm_area a 0 + G (x + k) - (1 / 2 - norm_area a 0 + G x))
    with (G (x + k) - G x) by ring.
  apply Hdelta; [exact Hk0|lra].
Qed.

(** Hence it is increasing. *)
Lemma norm_pdf_pos t : 0 < norm_pdf t.
Proof.
  unfold norm_pdf. apply Rdiv_lt_0_compat; [apply exp_pos|].
  apply sqrt_lt_R0. pose proof PI_RGT_0. lra.
Qed.

Lemma norm_cdf_increasing x y : x < y -> norm_cdf x < norm_cdf y.
Proof.
  intros Hxy.
  assert (Hd : derivable norm_cdf)
    by (intros t; exists (norm_pdf t); apply norm_cdf_derivative).
  apply (derive_increasing_interv x y norm_cdf Hd Hxy); [|lra|lra|exact Hxy].
  intros t _. rewrite (derive_pt_eq_0 _ _ _ (Hd t) (norm_cdf_derivative t)).
  apply norm_pdf_pos.
Qed.

(** ** The analytic pricer *)

(** What [black_scholes_price] computes once [S / K] is defined, in the
    specification's terms. *)
Lemma black_scholes_price_nonzero S K T r sigma option_type :
  K <> 0 ->
  black_scholes_price S K T r sigma option_type =
    if decide (option_type = "call") then
      Return (spec_analytic Call S K T r sigma)
    else if decide (option_type = "put") then
      Return (spec_analytic Put S K T r sigma)
    else Raise invalid_option_type.
Proof.
  intros HK. unfold black_scholes_price.
  rewrite py_truediv_nonzero by exact HK.
  unfold mbind, result_bind. cbv zeta.
  assert (Hd1 : (ln (S / K) + (r + 0.5 * sigma ^ 2) * T) / (sigma * sqrt T)
                = spec_d1 S K T r sigma).
  { unfold spec_d1. f_equal. lra. }
  rewrite Hd1. fold (spec_d2 S K T r sigma).
  replace (- r * T) with (- (r * T)) by ring.
  reflexivity.
Qed.

Lemma black_scholes_price_zero_strike S T r sigma option_type :
  black_scholes_price S 0 T r sigma option_type = Raise ZeroDivisionError.
Proof. unfold black_scholes_price. by rewrite py_truediv_zero. Qed.

(** C2: for S > 0, K > 0, T > 0, r >= 0, sigma > 0 the analytic pricer
    returns exactly the Black-Scholes value of the specification: with
    d1 = (ln(S/K) + (r + sigma^2/2) T) / (sigma sqrt T) and
    d2 = d1 - sigma sqrt T, the call is S Phi(d1) - K e^(-rT) Phi(d2) and
    the put is K e^(-rT) Phi(-d2) - S Phi(-d1). *)
Theorem black_scholes_price_formula (k : option_kind) (S K T r sigma : R) :
  0 < S -> 0 < K -> 0 < T -> 0 <= r -> 0 < sigma ->
  black_scholes_price S K T r sigma (kind_name k)
    = Return (spec_analytic k S K T r sigma).
Proof.
  intros _ HK _ _ _.
  rewrite black_scholes_price_nonzero by lra.
  by destruct k.
Qed.

Lemma black_scholes_price_formula_witness :
  black_scholes_price 100 100 1 0.05 0.2 (kind_name Put)
    = Return (spec_analytic Put 100 100 1 0.05 0.2).
Proof. apply (black_scholes_price_formula Put 100 100 1 0.05 0.2); lra. Defined.

(** ** The analytic pricer on typed scalars *)

Lemma scalar_truediv_raises (S K : scalar) :
  python_zero_division S K -> scalar_truediv S K = Raise ZeroDivisionError.
Proof.
  destruct S as [x|x], K as [y|y]; try done.
  unfold python_zero_division, scalar_truediv. intros ->.
  by destruct (Req_dec_T 0 0).
Qed.

Lemma scalar_truediv_returns (S K : scalar) :
  ~ python_zero_division S K ->
  exists m, scalar_truediv S K = Return m /\
            scalar_value m = scalar_value S / scalar_value K.
Proof.
  destruct S as [x|x], K as [y|y]; intros Hzd; try by eexists.
  unfold python_zero_division in Hzd. unfold scalar_truediv.
  destruct (Req_dec_T y 0); [done|by eexists].
Qed.


Lemma scalar_pow2_returns (sigma : scalar) :
  ~ python_pow_overflow sigma ->
  exists s2, scalar_pow2 sigma = Return s2 /\
             scalar_value s2 = scalar_value sigma ^ 2.
Proof.
  destruct sigma as [x|x]; intros Hov; [|by eexists].
  unfold python_pow_overflow in Hov. unfold scalar_pow2.
  destruct (Rle_dec (2 ^ 1024) (x ^ 2)); [done|by eexists].
Qed.

(** The square of a Python float is out of range from [2 ^ 512] on. *)
Lemma python_pow_overflow_abs (x : R) :
  python_pow_overflow (py_float x) <-> 2 ^ 512 <= Rabs x.
Proof.
  unfold python_pow_overflow. rewrite <- (pow2_abs x).
  pose proof (Rabs_pos x) as Hx.
  assert (H2 : 0 < 2 ^ 512) by (apply pow_lt; lra).
  replace (2 ^ 1024) with ((2 ^ 512) ^ 2) by (rewrite <- pow_mult; reflexivity).
  split; intros H.
  - apply Rnot_lt_le. intros Hlt.
    assert (Rabs x ^ 2 < (2 ^ 512) ^ 2) by nra. lra.
  - nra.
Qed.

(** The largest binary64 value below [2 ^ 512] squares to less than the
    largest binary64 value, so no binary64 argument has its square between
    the two. *)
Example pow_overflow_boundary :
  (2 ^ 512 - 2 ^ 459) ^ 2 < (2 ^ 53 - 1) * 2 ^ 971.
Proof. lra. Qed.

Lemma scalars_price_zero_division (S K T r sigma : scalar) (option_type : string) :
  python_zero_division S K ->
  Scalars.black_scholes_price S K T r sigma option_type = Raise ZeroDivisionError.
Proof.
  intros Hzd. unfold Scalars.black_scholes_price.
  by rewrite scalar_truediv_raises.
Qed.


(** Where neither operator raises, the typed reading computes the
    specification's formulas on the values of its arguments. *)
Lemma scalars_price_in_range (S K T r sigma : scalar) (option_type : string) :
  ~ python_zero_division S K -> ~ python_pow_overflow sigma ->
  Scalars.black_scholes_price S K T r sigma option_type =
    if decide (option_type = "call") then
      Return (spec_analytic Call (scalar_value S) (scalar_value K) (scalar_value T)
                (scalar_value r) (scalar_value sigma))
    else if decide (option_type = "put") then
      Return (spec_analytic Put (scalar_value S) (scalar_value K) (scalar_value T)
                (scalar_value r) (scalar_value sigma))
    else Raise invalid_option_type.
Proof.
  intros Hzd Hov. unfold Scalars.black_scholes_price.
  destruct (scalar_truediv_returns S K Hzd) as (m & -> & Hm).
  rewrite bind_Return.
  destruct (scalar_pow2_returns sigma Hov) as (s2 & -> & Hs2).
  rewrite bind_Return. cbv zeta. rewrite Hm, Hs2.
  set (vS := scalar_value S). set (vK := scalar_value K).
  set (vT := scalar_value T). set (vr := scalar_value r).
  set (vs := scalar_value sigma).
  assert (Hd1 : (ln (vS / vK) + (vr + 0.5 * vs ^ 2) * vT) / (vs * sqrt vT)
                = spec_d1 vS vK vT vr vs).
  { unfold spec_d1. f_equal. lra. }
  rewrite Hd1. fold (spec_d2 vS vK vT vr vs).
  replace (- vr * vT) with (- (vr * vT)) by ring.
  reflexivity.
Qed.

(** On Python floats whose square is in range the typed reading is the
    real-number reading, the [ZeroDivisionError] of a zero strike
    included. *)
Lemma scalars_price_python_floats (S K T r sigma : R) (option_type : string) :
  Rabs sigma < 2 ^ 512 ->
  Scalars.black_scholes_price (py_float S) (py_float K) (py_float T) (py_float r)
    (py_float sigma) option_type
  = black_scholes_price S K T r sigma option_type.
Proof.
  intros Hsigma.
  assert (Hov : ~ python_pow_overflow (py_float sigma))
    by (rewrite python_pow_overflow_abs; lra).
  destruct (Req_dec_T K 0) as [->|HK].
  - rewrite scalars_price_zero_division by done.
    by rewrite black_scholes_price_zero_strike.
  - rewrite scalars_price_in_range by done.
    by rewrite black_scholes_price_nonzero.
Qed.




(** ** Arrays and loops *)

Lemma np_index_in_range (len : nat) (i : Z) :
  (0 <= i < Z.of_nat len)%Z -> np_index len i = Return (Z.to_nat i).
Proof. intros Hi. unfold np_index. by rewrite decide_True. Qed.

Lemma getitem_lookup (a : ndarray) (k : nat) (x : R) :
  a !! k = Some x -> getitem a (Z.of_nat k) = Return x.
Proof.
  intros Hk. unfold getitem.
  rewrite np_index_in_range by (apply lookup_lt_Some in Hk; lia).
  unfold mbind, result_bind. by rewrite Nat2Z.id, Hk.
Qed.

Lemma setitem_in_range (a : ndarray) (k : nat) (x : R) :
  (k < length a)%nat -> setitem a (Z.of_nat k) x = Return (<[k := x]> a).
Proof.
  intros Hk. unfold setitem. rewrite np_index_in_range by lia.
  unfold mbind, result_bind. by rewrite Nat2Z.id.
Qed.

Lemma getitem_empty (i : Z) : getitem [] i = Raise IndexError.
Proof.
  unfold getitem, np_index. simpl.
  by rewrite !decide_False by lia.
Qed.

Lemma setitem_empty (i : Z) (x : R) : setitem [] i x = Raise IndexError.
Proof.
  unfold setitem, np_index. simpl.
  by rewrite !decide_False by lia.
Qed.

(** A loop whose body cannot fail is an iteration of the body. *)
Lemma for_each_pure {A St : Type} (f : St -> St) (xs : list A) (st : St) :
  for_each xs (fun _ st => Return (f st)) st = Return (Nat.iter (length xs) f st).
Proof.
  revert st. induction xs as [|x xs IH]; intros st; [done|].
  simpl for_each. unfold mbind, result_bind. rewrite IH.
  simpl length. by rewrite Nat.iter_succ_r.
Qed.

Lemma py_range_length (lo hi : Z) : length (py_range lo hi) = Z.to_nat (hi - lo).
Proof. unfold py_range. by rewrite length_fmap, length_seq. Qed.

(** ** The lattice pricer: the forward loop *)

Section forward.
Variables u d p0 : R.

Local Abbreviation spot := (spot_at u d p0).

Lemma spot_at_succ i : spot i * u / d = spot (S i).
Proof. unfold spot_at, Rdiv. simpl. ring. Qed.

(** Invariant: the first [k + 1] cells hold their spots, the other [m]
    cells are still zero. *)
Lemma forward_loop (m k : nat) :
  for_each ((fun j => (1 + Z.of_nat j)%Z) <$> seq k m)
    (fun i prices => p ← getitem prices (i - 1); setitem prices i (p * u / d))
    ((spot <$> seq 0 (S k)) ++ replicate m 0)
  = Return (spot <$> seq 0 (S k + m)).
Proof.
  revert k. induction m as [|m IH]; intros k.
  - simpl for_each. by rewrite Nat.add_0_r, app_nil_r.
  - set (pre := spot <$> seq 0 (S k)).
    cbn [seq fmap list_fmap for_each replicate].
    assert (Hlen : length pre = S k)
      by (unfold pre; by rewrite length_fmap, length_seq).
    assert (Hget : getitem (pre ++ 0 :: replicate m 0) (1 + Z.of_nat k - 1)
                   = Return (spot k)).
    { replace (1 + Z.of_nat k - 1)%Z with (Z.of_nat k) by lia.
      apply getitem_lookup. rewrite lookup_app_l by lia.
      unfold pre. rewrite list_lookup_fmap, lookup_seq_lt by lia. done. }
    rewrite Hget, bind_Return.
    replace (1 + Z.of_nat k)%Z with (Z.of_nat (S k)) by lia.
    rewrite setitem_in_range by (rewrite length_app, Hlen; simpl; lia).
    rewrite bind_Return, insert_app_r_alt by lia.
    rewrite Hlen, Nat.sub_diag.
    cbn [insert list_insert].
    rewrite spot_at_succ.
    replace (pre ++ spot (S k) :: replicate m 0)
      with ((spot <$> seq 0 (S (S k))) ++ replicate m 0).
    + rewrite (IH (S k)).
      by replace (S (S k) + m)%nat with (S k + S m)%nat by lia.
    + rewrite (seq_S (S k)), fmap_app, <- app_assoc. done.
Qed.
End forward.

(** ** The lattice pricer: the backward loop *)

Section backward.
Variables disc q : R.

Lemma spec_collapse_length (v : list R) :
  length (spec_collapse disc q v) = (length v - 1)%nat.
Proof.
  induction v as [|x [|y t] IH]; [done|done|].
  change (length (spec_collapse disc q (x :: y :: t)))
    with (S (length (spec_collapse disc q (y :: t)))).
  rewrite IH. simpl. lia.
Qed.

(** The right-hand side of the assignment is the collapsed layer. *)
Lemma backward_rhs_collapse (v : ndarray) :
  np_scale disc (np_add (np_scale q (slice_from1 v))
                        (np_scale (1 - q) (slice_to_last v)))
  = spec_collapse disc q v.
Proof.
  unfold np_scale, np_add, slice_from1, slice_to_last.
  induction v as [|x [|y t] IH]; [done|done|].
  change (spec_collapse disc q (x :: y :: t))
    with (disc * (q * y + (1 - q) * x) :: spec_collapse disc q (y :: t)).
  rewrite <- IH. simpl. by rewrite Nat.sub_0_r.
Qed.

(** The array keeps its length: the layer shrinks inside it. *)
Lemma backward_step_collapse (v : ndarray) :
  backward_step disc q v = spec_collapse disc q v ++ drop (length v - 1) v.
Proof. unfold backward_step, assign_to_last. by rewrite backward_rhs_collapse. Qed.

Lemma backward_step_length (v : ndarray) :
  length (backward_step disc q v) = length v.
Proof.
  rewrite backward_step_collapse, length_app, spec_collapse_length, length_drop.
  lia.
Qed.

Lemma iter_backward_step_length (k : nat) (v : ndarray) :
  length (Nat.iter k (backward_step disc q) v) = length v.
Proof. induction k as [|k IH]; [done|]. simpl. by rewrite backward_step_length. Qed.

Lemma iter_spec_collapse_length (k : nat) (v : list R) :
  length (Nat.iter k (spec_collapse disc q) v) = (length v - k)%nat.
Proof.
  induction k as [|k IH]; simpl; [lia|]. rewrite spec_collapse_length, IH. lia.
Qed.

(** Collapsing a prefix gives a prefix of the collapsed layer. *)
Lemma spec_collapse_take (j : nat) (v : list R) :
  spec_collapse disc q (take (S j) v) = take j (spec_collapse disc q v).
Proof.
  revert v. induction j as [|j IH]; intros v.
  - destruct v as [|x [|y t]]; done.
  - destruct v as [|x [|y t]]; [done|done|].
    change (take (S (S j)) (x :: y :: t)) with (x :: y :: take j t).
    change (x :: y :: take j t) with (x :: take (S j) (y :: t)).
    change (spec_collapse disc q (x :: y :: t))
      with (disc * (q * y + (1 - q) * x) :: spec_collapse disc q (y :: t)).
    cbn [take]. rewrite <- IH. done.
Qed.

(** Invariant of the backward loop: after [k] passes the first
    [length v - k] cells of the array are the layer after [k] collapses;
    the cells behind them are stale. *)
Lemma iter_backward_step_prefix (k : nat) (v : ndarray) :
  (k <= length v - 1)%nat ->
  take (length v - k) (Nat.iter k (backward_step disc q) v)
  = Nat.iter k (spec_collapse disc q) v.
Proof.
  induction k as [|k IH]; intros Hk.
  - simpl. by rewrite Nat.sub_0_r, firstn_all.
  - cbn [Nat.iter nat_rect]. fold (Nat.iter k (backward_step disc q) v).
    fold (Nat.iter k (spec_collapse disc q) v).
    rewrite <- IH by lia.
    set (w := Nat.iter k (backward_step disc q) v).
    assert (Hw : length w = length v) by apply iter_backward_step_length.
    rewrite backward_step_collapse, take_app_le
      by (rewrite spec_collapse_length; lia).
    replace (length v - k)%nat with (S (length v - S k)) by lia.
    by rewrite spec_collapse_take.
Qed.
End backward.

(** ** The lattice pricer: the whole function *)

Lemma code_terminal_values_length option_type S K u d N :
  length (code_terminal_values option_type S K u d N) = (N + 1)%nat.
Proof.
  unfold code_terminal_values, np_maximum, np_sub_scalar, np_rsub_scalar.
  case_decide; by rewrite !length_fmap, length_seq.
Qed.

Lemma code_terminal_values_kind (k : option_kind) S K u d N :
  code_terminal_values (kind_name k) S K u d N = spec_terminal_layer k S K u d N.
Proof.
  unfold code_terminal_values, spec_terminal_layer, np_maximum,
    np_sub_scalar, np_rsub_scalar.
  destruct k; simpl kind_name.
  - rewrite decide_True by done. by rewrite <- !list_fmap_compose.
  - rewrite decide_False by done. by rewrite <- !list_fmap_compose.
Qed.

Lemma spec_dt_steps (T : R) (steps : Z) :
  (0 <= steps)%Z -> T / IZR steps = spec_dt T (Z.to_nat steps).
Proof.
  intros Hs. unfold spec_dt. by rewrite INR_IZR_INZ, Z2Nat.id.
Qed.

(** With at least one step no guard fires, both loops run to their end,
    and the value returned is the one that [N] collapses leave. *)
Lemma binomial_tree_price_value S K T r sigma steps option_type :
  (1 <= steps)%Z ->
  let N := Z.to_nat steps in
  let dt := spec_dt T N in
  let u := spec_u sigma dt in
  let d := spec_d sigma dt in
  exists v : R,
    Nat.iter N (spec_collapse (exp (- (r * dt))) (spec_q r sigma dt))
      (code_terminal_values option_type S K u d N) = [v] /\
    binomial_tree_price S K T r sigma steps option_type = Return v.
Proof.
  intros Hsteps N dt u d.
  set (q := spec_q r sigma dt). set (disc := exp (- (r * dt))).
  set (vals := code_terminal_values option_type S K u d N).
  set (w := Nat.iter N (backward_step disc q) vals).
  assert (Hvals : length vals = Datatypes.S N)
    by (unfold vals; rewrite code_terminal_values_length; lia).
  assert (Hw : length w = Datatypes.S N)
    by (unfold w; by rewrite iter_backward_step_length).
  assert (Hpre : take 1 w = Nat.iter N (spec_collapse disc q) vals).
  { rewrite <- (iter_backward_step_prefix disc q N vals) by lia.
    fold w. f_equal. lia. }
  assert (Hone : length (Nat.iter N (spec_collapse disc q) vals) = 1%nat)
    by (rewrite iter_spec_collapse_length; lia).
  destruct (Nat.iter N (spec_collapse disc q) vals) as [|v [|? ?]] eqn:Hc;
    [done| |done].
  exists v. split; [done|].
  unfold binomial_tree_price.
  rewrite py_truediv_nonzero by (apply not_0_IZR; lia).
  rewrite bind_Return, spec_dt_steps by lia.
  fold N. fold dt. cbv zeta.
  change (exp (sigma * sqrt dt)) with u. change (1 / u) with d.
  change ((exp (r * dt) - d) / (u - d)) with q.
  unfold np_zeros. rewrite decide_False, bind_Return by lia.
  replace (Z.to_nat (steps + 1)) with (Datatypes.S N) by lia.
  cbn [replicate].
  rewrite (setitem_in_range (0 :: replicate N 0) 0) by (simpl; lia).
  rewrite bind_Return. cbn [insert list_insert].
  replace (py_range 1 (steps + 1))
    with ((fun j => (1 + Z.of_nat j)%Z) <$> seq 0 N)
    by (unfold py_range; f_equal; f_equal; lia).
  replace (powerRZ d steps) with (d ^ N)
    by (rewrite pow_powerRZ; unfold N; by rewrite Z2Nat.id by lia).
  replace (S * d ^ N :: replicate N 0)
    with ((spot_at u d (S * d ^ N) <$> seq 0 1) ++ replicate N 0)
    by (simpl; unfold spot_at; simpl; by rewrite Rmult_1_r).
  rewrite forward_loop, bind_Return.
  replace (1 + N)%nat with (N + 1)%nat by lia.
  fold (code_terminal_values option_type S K u d N). fold vals.
  replace (- r * dt) with (- (r * dt)) by ring. fold disc.
  rewrite for_each_pure, bind_Return, py_range_length.
  replace (Z.to_nat (steps - 0)) with N by lia. fold w.
  apply (getitem_lookup w 0).
  destruct w as [|x w']; [done|]. simpl in Hpre. by injection Hpre as ->.
Qed.

(** The unguarded step count: zero steps fail in [T / steps], minus one in
    the store to [prices[0]], anything lower in [np.zeros]. *)
Lemma binomial_tree_price_bad_steps S K T r sigma steps option_type :
  (steps <= 0)%Z ->
  binomial_tree_price S K T r sigma steps option_type =
    if decide (steps = 0)%Z then Raise ZeroDivisionError
    else if decide (steps = -1)%Z then Raise IndexError
    else Raise (ValueError "negative dimensions are not allowed").
Proof.
  intros Hs. unfold binomial_tree_price.
  destruct (decide (steps = 0)%Z) as [->|H0]; [by rewrite py_truediv_zero|].
  rewrite py_truediv_nonzero, bind_Return by (apply not_0_IZR; lia).
  cbv zeta. unfold np_zeros.
  destruct (decide (steps = -1)%Z) as [->|H1].
  - rewrite decide_False, bind_Return by lia.
    change (Z.to_nat (-1 + 1)) with 0%nat. cbn [replicate].
    by rewrite setitem_empty.
  - by rewrite decide_True by lia.
Qed.

(** C3: for K > 0, T > 0, r >= 0, sigma > 0, N >= 1 and the option type
    call or put, the lattice pricer returns the value of the two-phase
    algorithm of the specification: from the N + 1 terminal payoffs at the
    spots S d^N (u/d)^i, each of N backward steps turns a layer of size m
    into one of size m - 1 by e^(-r dt) (q v[i+1] + (1 - q) v[i]), and the
    single value left is the price. *)
Theorem binomial_tree_price_lattice (k : option_kind) (S K T r sigma : R)
    (steps : Z) :
  0 < K -> 0 < T -> 0 <= r -> 0 < sigma -> (1 <= steps)%Z ->
  let N := Z.to_nat steps in
  (forall j : nat, (j <= N)%nat ->
     length (spec_lattice_layers k S K T r sigma N j) = (N + 1 - j)%nat) /\
  exists v : R,
    spec_lattice_layers k S K T r sigma N N = [v] /\
    binomial_tree_price S K T r sigma steps (kind_name k) = Return v.
Proof.
  intros _ _ _ _ Hsteps N. split.
  - intros j _. unfold spec_lattice_layers.
    rewrite iter_spec_collapse_length. unfold spec_terminal_layer.
    by rewrite length_fmap, length_seq.
  - destruct (binomial_tree_price_value S K T r sigma steps (kind_name k) Hsteps)
      as (v & Hv & Hprice).
    exists v. split; [|exact Hprice].
    unfold spec_lattice_layers. fold N. by rewrite <- code_terminal_values_kind.
Qed.

Lemma binomial_tree_price_lattice_witness :
  (forall j : nat, (j <= 2)%nat ->
     length (spec_lattice_layers Call 100 100 1 0.05 0.2 2 j) = (2 + 1 - j)%nat) /\
  exists v : R,
    spec_lattice_layers Call 100 100 1 0.05 0.2 2 2 = [v] /\
    binomial_tree_price 100 100 1 0.05 0.2 2 "call" = Return v.
Proof.
  apply (binomial_tree_price_lattice Call 100 100 1 0.05 0.2 2); lra || lia.
Defined.

(** The option type is only ever compared with "call". *)
Lemma binomial_tree_price_else S K T r sigma steps option_type :
  option_type <> "call" ->
  binomial_tree_price S K T r sigma steps option_type
  = binomial_tree_price S K T r sigma steps "put".
Proof.
  intros Hot. unfold binomial_tree_price.
  destruct (decide (option_type = "call")) as [?|_]; [done|].
  by destruct (decide ("put" = "call")).
Qed.

(** C10: an option type other than "call" is priced as "put" is: the
    results agree for every input, and with at least one step the result
    is a value, the one the specification's lattice gives for the put
    payoffs max(0, K - S_i); no error is raised for the option type. *)
Theorem binomial_tree_price_not_call (S K T r sigma : R) (steps : Z)
    (option_type : string) :
  option_type <> "call" ->
  binomial_tree_price S K T r sigma steps option_type
    = binomial_tree_price S K T r sigma steps "put" /\
  ((1 <= steps)%Z ->
   exists v : R,
     spec_lattice_layers Put S K T r sigma (Z.to_nat steps) (Z.to_nat steps) = [v] /\
     binomial_tree_price S K T r sigma steps option_type = Return v).
Proof.
  intros Hot.
  pose proof (binomial_tree_price_else S K T r sigma steps option_type Hot) as Heq.
  split; [exact Heq|]. intros Hsteps. rewrite Heq.
  destruct (binomial_tree_price_value S K T r sigma steps "put" Hsteps)
    as (v & Hv & Hprice).
  exists v. split; [|exact Hprice].
  unfold spec_lattice_layers.
  by rewrite <- (code_terminal_values_kind Put).
Qed.

Lemma binomial_tree_price_not_call_witness :
  binomial_tree_price 100 100 1 0.05 0.2 50 "straddle"
    = binomial_tree_price 100 100 1 0.05 0.2 50 "put" /\
  exists v : R,
    spec_lattice_layers Put 100 100 1 0.05 0.2 (Z.to_nat 50) (Z.to_nat 50) = [v] /\
    binomial_tree_price 100 100 1 0.05 0.2 50 "straddle" = Return v.
Proof.
  destruct (binomial_tree_price_not_call 100 100 1 0.05 0.2 50 "straddle")
    as [H1 H2]; [done|].
  split; [exact H1|]. apply H2. lia.
Defined.

(** ** The grid: loops with in-place stores against a nested map *)

Lemma mapM_cons {A B} (g : A -> result B) (x : A) (xs : list A) :
  mapM g (x :: xs) = (y ← g x; ys ← mapM g xs; Return (y :: ys)).
Proof. done. Qed.

(** A nested map returns exactly when the function returns on every
    element, and then element by element. *)
Lemma mapM_Return {A B} (g : A -> result B) (xs : list A) (ys : list B) :
  mapM g xs = Return ys <-> Forall2 (fun x y => g x = Return y) xs ys.
Proof.
  revert ys. induction xs as [|x xs IH]; intros ys.
  - split.
    + intros [= <-]. constructor.
    + by intros ->%Forall2_nil_inv_l.
  - rewrite mapM_cons. split.
    + destruct (g x) as [y|e] eqn:Hx; [|done]. rewrite bind_Return.
      destruct (mapM g xs) as [ys'|e] eqn:Hxs; [|done].
      rewrite bind_Return. intros [= <-].
      constructor; [done|]. by apply IH.
    + intros (y & ys' & Hy & Hys & ->)%Forall2_cons_inv_l.
      apply IH in Hys. by rewrite Hy, bind_Return, Hys.
Qed.

Lemma mapM_returns {A B} (g : A -> result B) (xs : list A) :
  (forall x, x ∈ xs -> returns (g x)) -> returns (mapM g xs).
Proof.
  induction xs as [|x xs IH]; intros Hall.
  - by exists [].
  - destruct (Hall x) as [y Hy]; [by left|].
    destruct IH as [ys Hys]; [intros x' Hx'; apply Hall; by right|].
    exists (y :: ys). by rewrite mapM_cons, Hy, bind_Return, Hys.
Qed.

Lemma for_each_ext {A St} (body body' : A -> St -> result St) xs st :
  (forall x st, body x st = body' x st) ->
  for_each xs body st = for_each xs body' st.
Proof.
  intros Hext. revert st. induction xs as [|x xs IH]; intros st; [done|].
  simpl. rewrite Hext. destruct (body' x st) as [st'|e]; [|done].
  by rewrite !bind_Return.
Qed.

Section grid.
Variable price : R -> R -> result R.

(** The inner loop on row [i]: the cells before column [length done]
    are stored, the others still hold their initial content. *)
Lemma row_loop (sigma : R) (i : nat) (before after : list (list R)) :
  length before = i ->
  forall (xs : list R) (done rest : list R),
    length rest = length xs ->
    for_each (enumerate_from (length done) xs)
      (fun col prices => p ← price col.2 sigma; setitem2 prices i col.1 p)
      (before ++ (done ++ rest) :: after)
    = (vs ← mapM (fun S => price S sigma) xs;
       Return (before ++ (done ++ vs) :: after)).
Proof.
  intros Hi xs. induction xs as [|x xs IH]; intros done rest Hrest.
  - destruct rest; [|done]. done.
  - destruct rest as [|c rest]; [done|].
    cbn [enumerate_from for_each fst snd]. rewrite mapM_cons.
    destruct (price x sigma) as [p|e]; [|done].
    rewrite !bind_Return.
    assert (Hset : setitem2 (before ++ (done ++ c :: rest) :: after) i
                     (length done) p
                   = Return (before ++ ((done ++ [p]) ++ rest) :: after)).
    { unfold setitem2.
      rewrite lookup_app_r, Hi, Nat.sub_diag by lia. simpl.
      rewrite decide_True by (rewrite length_app; simpl; lia).
      rewrite <- Hi at 1.
      rewrite insert_app_r_alt, Nat.sub_diag by lia. simpl.
      rewrite insert_app_r_alt, Nat.sub_diag by lia. simpl.
      by rewrite <- app_assoc. }
    rewrite Hset, bind_Return.
    replace (Datatypes.S (length done)) with (length (done ++ [p]))
      by (rewrite length_app; simpl; lia).
    rewrite IH by (simpl in Hrest; lia).
    destruct (mapM (fun S => price S sigma) xs) as [vs|e]; [|done].
    by rewrite !bind_Return, <- app_assoc.
Qed.

(** The outer loop: the rows before [length finished] are complete. *)
Lemma grid_loop (S_range : list R) (vols : list R) (finished : list (list R)) :
  for_each (enumerate_from (length finished) vols)
    (fun row prices =>
       for_each (enumerate S_range)
         (fun col prices => p ← price col.2 row.2; setitem2 prices row.1 col.1 p)
         prices)
    (finished ++ replicate (length vols) (replicate (length S_range) 0))
  = (rows ← spec_grid price S_range vols; Return (finished ++ rows)).
Proof.
  revert finished. induction vols as [|sigma vols IH]; intros finished.
  - done.
  - cbn [enumerate_from for_each fst snd length replicate].
    unfold spec_grid. rewrite mapM_cons. fold (spec_grid price S_range vols).
    pose proof (row_loop sigma (length finished) finished
                  (replicate (length vols) (replicate (length S_range) 0))
                  eq_refl S_range [] (replicate (length S_range) 0)) as Hrow.
    cbn [length app] in Hrow.
    change (enumerate_from 0 S_range) with (enumerate S_range) in Hrow.
    rewrite Hrow by apply length_replicate.
    destruct (mapM (fun S => price S sigma) S_range) as [vs|e]; [|done].
    rewrite !bind_Return.
    replace (finished ++ vs :: replicate (length vols) (replicate (length S_range) 0))
      with ((finished ++ [vs]) ++ replicate (length vols) (replicate (length S_range) 0))
      by (by rewrite <- app_assoc).
    replace (Datatypes.S (length finished)) with (length (finished ++ [vs]))
      by (rewrite length_app; simpl; lia).
    rewrite IH.
    destruct (spec_grid price S_range vols) as [rows|e]; [|done].
    by rewrite !bind_Return, <- app_assoc.
Qed.
End grid.

(** Lines 41-48 compute the specification's grid of the cell prices. *)
Lemma heatmap_prices_spec_grid S_range vol_range K T r model_func model_params
    steps option_type :
  heatmap_prices S_range vol_range K T r model_func model_params steps option_type
  = spec_grid (cell_price model_func K T r (default default_steps steps)
                 (default default_option_type option_type))
      S_range vol_range.
Proof.
  unfold heatmap_prices. cbv zeta.
  set (price := cell_price _ _ _ _ _ _).
  rewrite (for_each_ext _
    (fun row prices =>
       for_each (enumerate S_range)
         (fun col prices => p ← price col.2 row.2; setitem2 prices row.1 col.1 p)
         prices)).
  - pose proof (grid_loop price S_range vol_range []) as Hgrid.
    cbn [length app] in Hgrid.
    unfold np_zeros2. unfold enumerate at 1. rewrite Hgrid.
    by destruct (spec_grid price S_range vol_range).
  - intros row prices. apply for_each_ext. intros col prices'.
    unfold price, cell_price. by case_decide.
Qed.

(** ** The cell prices of the two pricers *)

Lemma cell_price_black_scholes K T r steps option_type S sigma :
  cell_price black_scholes_fn K T r steps option_type S sigma
  = black_scholes_price S K T r sigma option_type.
Proof. unfold cell_price. by rewrite decide_False. Qed.

Lemma cell_price_binomial_tree K T r steps option_type S sigma :
  cell_price binomial_tree_fn K T r steps option_type S sigma
  = binomial_tree_price S K T r sigma steps option_type.
Proof. unfold cell_price. by rewrite decide_True. Qed.

Lemma black_scholes_cell_returns (k : option_kind) K T r steps S sigma :
  K <> 0 -> returns (cell_price black_scholes_fn K T r steps (kind_name k) S sigma).
Proof.
  intros HK. rewrite cell_price_black_scholes, black_scholes_price_nonzero by done.
  destruct k; apply returns_Return.
Qed.

Lemma binomial_tree_cell_returns K T r steps option_type S sigma :
  (1 <= steps)%Z ->
  returns (cell_price binomial_tree_fn K T r steps option_type S sigma).
Proof.
  intros Hsteps. rewrite cell_price_binomial_tree.
  destruct (binomial_tree_price_value S K T r sigma steps option_type Hsteps)
    as (v & _ & Hv).
  by exists v.
Qed.

Lemma load_global_sns : load_global "sns" = Raise (NameError "sns").
Proof.
  unfold load_global. rewrite decide_False; [done|].
  unfold module_globals. intros H.
  repeat (apply elem_of_cons in H as [H|H]; [discriminate H|]).
  by apply elem_of_nil in H.
Qed.

(** After the loops the function always fails on the unbound name. *)
Lemma generate_heatmap_after_loops S_range vol_range K T r model_func
    model_params steps option_type :
  generate_heatmap S_range vol_range K T r model_func model_params steps option_type
  = (_ ← heatmap_prices S_range vol_range K T r model_func model_params
           steps option_type;
     Raise (NameError "sns")).
Proof.
  unfold generate_heatmap. cbv zeta.
  destruct (heatmap_prices _ _ _ _ _ _ _ _ _); [|done].
  by rewrite !bind_Return, load_global_sns.
Qed.

(** ** The grid evaluator *)

(** C1: whenever the chosen pricer returns on every cell, the two loops
    leave a matrix with one row per volatility and one column per spot,
    and cell [i][j] is the value the pricer returns for spot
    spotValues[j] and volatility volValues[i] with K, T, r and the option
    type fixed.  The matrix is a function of the inputs, so equal inputs
    give equal grids. *)
Theorem heatmap_prices_grid (S_range vol_range : list R) (K T r : R)
    (model_func : callable) (model_params : option (gmap string Z))
    (steps : option Z) (option_type : option string) :
  (forall S sigma, S ∈ S_range -> sigma ∈ vol_range ->
     returns (cell_price model_func K T r (default default_steps steps)
                (default default_option_type option_type) S sigma)) ->
  exists prices : list (list R),
    heatmap_prices S_range vol_range K T r model_func model_params steps
      option_type = Return prices /\
    (forall prices',
       heatmap_prices S_range vol_range K T r model_func model_params steps
         option_type = Return prices' -> prices' = prices) /\
    length prices = length vol_range /\
    (forall row, row ∈ prices -> length row = length S_range) /\
    (forall i j sigma S,
       vol_range !! i = Some sigma -> S_range !! j = Some S ->
       exists row p,
         prices !! i = Some row /\ row !! j = Some p /\
         cell_price model_func K T r (default default_steps steps)
           (default default_option_type option_type) S sigma = Return p).
Proof.
  intros Hret. rewrite heatmap_prices_spec_grid.
  set (price := cell_price _ _ _ _ _ _) in *.
  destruct (mapM_returns (fun sigma => mapM (fun S => price S sigma) S_range)
              vol_range) as [prices Hprices].
  { intros sigma Hsigma. apply mapM_returns. intros S HS. by apply Hret. }
  exists prices. split; [exact Hprices|].
  split; [unfold spec_grid; rewrite Hprices; by intros ? [= <-]|].
  apply mapM_Return in Hprices.
  split; [symmetry; by eapply Forall2_length|]. split.
  - intros row (i & Hrow)%list_elem_of_lookup.
    destruct (Forall2_lookup_r _ _ _ _ _ Hprices Hrow) as (sigma & _ & Hmap).
    apply mapM_Return in Hmap. symmetry. by eapply Forall2_length.
  - intros i j sigma S Hsigma HS.
    destruct (Forall2_lookup_l _ _ _ _ _ Hprices Hsigma) as (row & Hrow & Hmap).
    apply mapM_Return in Hmap.
    destruct (Forall2_lookup_l _ _ _ _ _ Hmap HS) as (p & Hp & Hprice).
    by exists row, p.
Qed.

Lemma heatmap_prices_grid_witness :
  exists prices : list (list R),
    heatmap_prices [99; 100; 101] [0.1; 0.2] 100 1 0.05 black_scholes_fn
      None None (Some "put") = Return prices /\
    (forall prices',
       heatmap_prices [99; 100; 101] [0.1; 0.2] 100 1 0.05 black_scholes_fn
         None None (Some "put") = Return prices' -> prices' = prices) /\
    length prices = 2%nat /\
    (forall row, row ∈ prices -> length row = 3%nat) /\
    (forall i j sigma S,
       [0.1; 0.2] !! i = Some sigma -> [99; 100; 101] !! j = Some S ->
       exists row p,
         prices !! i = Some row /\ row !! j = Some p /\
         cell_price black_scholes_fn 100 1 0.05 default_steps "put" S sigma
           = Return p).
Proof.
  apply (heatmap_prices_grid [99; 100; 101] [0.1; 0.2] 100 1 0.05
           black_scholes_fn None None (Some "put")).
  intros S sigma _ _. apply (black_scholes_cell_returns Put). lra.
Defined.

(** C5, as the code has it: a call whose loops complete raises NameError
    for the unbound name sns; a call in which the pricer raises on some
    cell passes that error on instead; in either case the routine raises
    and returns nothing. *)
Theorem generate_heatmap_never_returns (S_range vol_range : list R) (K T r : R)
    (model_func : callable) (model_params : option (gmap string Z))
    (steps : option Z) (option_type : option string) :
  generate_heatmap S_range vol_range K T r model_func model_params steps
    option_type
  = match heatmap_prices S_range vol_range K T r model_func model_params
            steps option_type with
    | Return _ => Raise (NameError "sns")
    | Raise e => Raise e
    end
  /\ exists e : exn,
       generate_heatmap S_range vol_range K T r model_func model_params steps
         option_type = Raise e.
Proof.
  rewrite generate_heatmap_after_loops.
  destruct (heatmap_prices _ _ _ _ _ _ _ _ _) as [prices|e].
  - split; [done|]. by exists (NameError "sns").
  - split; [done|]. by exists e.
Qed.

(** C5 as stated fails when the pricer raises first: the analytic pricer
    rejects the option type "straddle" on the first cell, and that
    ValueError, not a NameError, reaches the caller. *)
Lemma generate_heatmap_value_error_counterexample :
  generate_heatmap [100] [0.2] 100 1 0.05 black_scholes_fn None None
    (Some "straddle") = Raise invalid_option_type /\
  generate_heatmap [100] [0.2] 100 1 0.05 black_scholes_fn None None
    (Some "straddle") <> Raise (NameError "sns").
Proof.
  assert (H : generate_heatmap [100] [0.2] 100 1 0.05 black_scholes_fn None None
                (Some "straddle") = Raise invalid_option_type).
  { rewrite generate_heatmap_after_loops, heatmap_prices_spec_grid.
    unfold spec_grid. rewrite !mapM_cons, cell_price_black_scholes.
    rewrite black_scholes_price_nonzero by lra.
    by rewrite !decide_False. }
  rewrite H. by split.
Qed.

(** C8: the matrix does not depend on [model_params]; with the lattice
    pricer every cell is priced with the [steps] argument, which is 50
    when omitted, and so it is at the application's call sites, whose
    [model_params] carries the slider's step count. *)
Theorem heatmap_prices_ignores_model_params (S_range vol_range : list R)
    (K T r : R) (model_func : callable) (params params' : option (gmap string Z))
    (steps : option Z) (option_type : option string) (slider : Z) (kind : string) :
  heatmap_prices S_range vol_range K T r model_func params steps option_type
    = heatmap_prices S_range vol_range K T r model_func params' steps option_type
  /\ heatmap_prices S_range vol_range K T r binomial_tree_fn params steps
       option_type
     = spec_grid (fun S sigma =>
                    binomial_tree_price S K T r sigma (default 50%Z steps)
                      (default "call" option_type))
         S_range vol_range
  /\ app_example_params slider binomial_tree_fn !! "steps" = Some slider
  /\ app_heatmap_prices S_range vol_range K T r slider binomial_tree_fn kind
     = spec_grid (fun S sigma => binomial_tree_price S K T r sigma 50 kind)
         S_range vol_range.
Proof.
  split; [done|]. split; [|split].
  - rewrite heatmap_prices_spec_grid. unfold spec_grid. f_equal.
  - done.
  - unfold app_heatmap_prices. rewrite heatmap_prices_spec_grid. done.
Qed.

(** C4 at a failing input: the lattice pricer does not reject the option
    type "straddle" but returns the put price, and the grid evaluator run
    with it fills every cell and then fails on the unbound name, not on
    the option type. *)
Theorem binomial_tree_price_accepts_straddle :
  returns (binomial_tree_price 100 100 1 0.05 0.2 50 "straddle") /\
  binomial_tree_price 100 100 1 0.05 0.2 50 "straddle"
    = binomial_tree_price 100 100 1 0.05 0.2 50 "put" /\
  returns (heatmap_prices [100] [0.2] 100 1 0.05 binomial_tree_fn None None
             (Some "straddle")) /\
  generate_heatmap [100] [0.2] 100 1 0.05 binomial_tree_fn None None
    (Some "straddle") = Raise (NameError "sns").
Proof.
  destruct (binomial_tree_price_value 100 100 1 0.05 0.2 50 "straddle")
    as (v & _ & Hv); [lia|].
  assert (Hgrid : heatmap_prices [100] [0.2] 100 1 0.05 binomial_tree_fn None
                    None (Some "straddle") = Return [[v]]).
  { rewrite heatmap_prices_spec_grid. unfold spec_grid.
    rewrite !mapM_cons, cell_price_binomial_tree. simpl default.
    unfold default_steps. by rewrite Hv. }
  split; [by exists v|]. split; [|split].
  - by apply binomial_tree_price_else.
  - rewrite Hgrid. apply returns_Return.
  - by rewrite generate_heatmap_after_loops, Hgrid.
Qed.

(** ** Bounds on [exp] by repeated squaring in fixed point *)

Lemma scale_pos : 0 < IZR scale.
Proof. apply IZR_lt. reflexivity. Qed.

Lemma exp_double t : exp (2 * t) = exp t * exp t.
Proof. rewrite <- exp_plus. f_equal. ring. Qed.

Lemma div_scale_square x y :
  x / IZR scale * (x / IZR scale) = x * x * / (IZR scale * IZR scale) /\
  y / IZR scale = y * IZR scale * / (IZR scale * IZR scale).
Proof. pose proof scale_pos. split; field; lra. Qed.

Lemma inv_scale_square_pos : 0 <= / (IZR scale * IZR scale).
Proof. pose proof scale_pos. left. apply Rinv_0_lt_compat. nra. Qed.

Lemma square_down_le (k : nat) (a : Z) (t : R) :
  (0 <= a)%Z -> IZR a / IZR scale <= exp t ->
  IZR (square_down k a) / IZR scale <= exp (2 ^ k * t).
Proof.
  revert a t. induction k as [|k IH]; intros a t Ha Hle.
  - simpl. by rewrite Rmult_1_l.
  - cbn [square_down]. replace (2 ^ S k * t) with (2 ^ k * (2 * t)) by (simpl; ring).
    apply IH; [apply Z.div_pos; [nia|reflexivity]|].
    rewrite exp_double.
    pose proof scale_pos as Hs. pose proof (IZR_le _ _ Ha) as Ha'.
    assert (Hdiv : IZR (a * a / scale) * IZR scale <= IZR a * IZR a).
    { rewrite <- !mult_IZR. apply IZR_le.
      rewrite Z.mul_comm. apply Z.mul_div_le. reflexivity. }
    apply Rle_trans with ((IZR a / IZR scale) * (IZR a / IZR scale)).
    + destruct (div_scale_square (IZR a) (IZR (a * a / scale))) as [-> ->].
      apply Rmult_le_compat_r; [apply inv_scale_square_pos|exact Hdiv].
    + assert (0 <= IZR a / IZR scale)
        by (apply Rmult_le_pos; [exact Ha'|left; by apply Rinv_0_lt_compat]).
      by apply Rmult_le_compat.
Qed.

Lemma square_up_ge (k : nat) (a : Z) (t : R) :
  (0 <= a)%Z -> exp t <= IZR a / IZR scale ->
  exp (2 ^ k * t) <= IZR (square_up k a) / IZR scale.
Proof.
  revert a t. induction k as [|k IH]; intros a t Ha Hle.
  - simpl. by rewrite Rmult_1_l.
  - cbn [square_up]. replace (2 ^ S k * t) with (2 ^ k * (2 * t)) by (simpl; ring).
    apply IH; [apply Z.div_pos; [unfold scale; nia|reflexivity]|].
    rewrite exp_double.
    pose proof scale_pos as Hs. pose proof (exp_pos t) as Ht.
    assert (Hdiv : IZR a * IZR a <= IZR ((a * a + scale - 1) / scale) * IZR scale).
    { rewrite <- !mult_IZR. apply IZR_le.
      pose proof (Z.div_mod (a * a + scale - 1) scale ltac:(done)) as Hdm.
      pose proof (Z.mod_pos_bound (a * a + scale - 1) scale ltac:(done)) as Hmod.
      lia. }
    apply Rle_trans with ((IZR a / IZR scale) * (IZR a / IZR scale)).
    + apply Rmult_le_compat; lra.
    + destruct (div_scale_square (IZR a) (IZR ((a * a + scale - 1) / scale)))
        as [-> ->].
      apply Rmult_le_compat_r; [apply inv_scale_square_pos|exact Hdiv].
Qed.

(** [exp (1/5)] to seven decimals, from [1 + h <= exp h <= 1 / (1 - h)]
    at [h = 1/5 / 2^20] and twenty squarings. *)
Lemma exp_fifth_bounds : 1.2214027 < exp 0.2 < 1.2214028.
Proof.
  set (h := / 5242880).
  assert (H02 : 0.2 = 2 ^ 20 * h) by (unfold h; lra).
  rewrite H02. split.
  - eapply Rlt_le_trans; [|apply (square_down_le 20 1000000190734863281 h); [done|]].
    + set (z := square_down 20 1000000190734863281). vm_compute in z. subst z.
      unfold scale. simpl. lra.
    + apply Rle_trans with (1 + h); [|apply exp_ineq1_le].
      unfold h, scale. simpl. lra.
  - eapply Rle_lt_trans; [apply (square_up_ge 20 1000000190734899662 h); [done|]|].
    + assert (Hinv : exp h <= / (1 - h)).
      { pose proof (exp_ineq1_le (- h)) as Hm. rewrite exp_Ropp in Hm.
        pose proof (exp_pos h) as Hp.
        assert (0 < 1 - h) by (unfold h; lra).
        rewrite <- (Rinv_inv (exp h)).
        apply Rinv_le_contravar; lra. }
      apply Rle_trans with (/ (1 - h)); [exact Hinv|].
      unfold h, scale. simpl. lra.
    + set (z := square_up 20 1000000190734899662). vm_compute in z. subst z.
      unfold scale. simpl. lra.
Qed.

(** ** One step by hand *)

(** The lattice constants of the example S = K = 100, T = 1, r = 0,
    sigma = 0.2, N = 1. *)
Lemma one_step_constants :
  spec_dt 1 1 = 1 /\
  spec_u 0.2 1 = exp 0.2 /\
  spec_d 0.2 1 = / exp 0.2 /\
  spec_q 0 0.2 1 = / (exp 0.2 + 1).
Proof.
  pose proof exp_fifth_bounds as [Hlo Hhi].
  assert (Hdt : spec_dt 1 1 = 1) by (unfold spec_dt; simpl; lra).
  assert (Hu : spec_u 0.2 1 = exp 0.2)
    by (unfold spec_u; by rewrite sqrt_1, Rmult_1_r).
  assert (Hd : spec_d 0.2 1 = / exp 0.2)
    by (unfold spec_d; rewrite Hu; lra).
  repeat split; try done.
  unfold spec_q. rewrite Hd, Hu, Rmult_0_l, exp_0.
  field. split; nra.
Qed.

(** With one step the price is the up-probability times the payoff of the
    upper node; the lower node pays nothing and nothing is discounted. *)
Lemma one_step_call_value :
  binomial_tree_price 100 100 1 0 0.2 1 "call"
  = Return (spec_q 0 0.2 1 * (100 * spec_u 0.2 1 - 100)).
Proof.
  destruct (binomial_tree_price_value 100 100 1 0 0.2 1 "call") as (v & Hv & ->);
    [lia|].
  f_equal. change (Z.to_nat 1) with 1%nat in Hv.
  destruct one_step_constants as (Hdt & Hu & Hd & Hq).
  pose proof exp_fifth_bounds as [Hlo Hhi].
  rewrite Hdt in Hv. rewrite Hu. rewrite Hu, Hd in Hv.
  set (u := exp 0.2) in *.
  assert (Hinv : / u * u = 1) by (apply Rinv_l; lra).
  assert (Hd1 : / u < 1) by nra.
  unfold code_terminal_values, np_maximum, np_sub_scalar, spot_at in Hv.
  rewrite decide_True in Hv by done.
  cbn [Nat.add seq fmap list_fmap Nat.iter nat_rect spec_collapse] in Hv.
  injection Hv as <-.
  replace (100 * (/ u * 1) * 1 - 100) with (100 * / u - 100) by ring.
  replace (100 * (/ u * 1) * (u / / u * 1) - 100) with (100 * u - 100)
    by (field; lra).
  rewrite (Rmax_left 0 (100 * / u - 100)) by lra.
  rewrite (Rmax_right 0 (100 * u - 100)) by lra.
  rewrite Rmult_0_l, Ropp_0, exp_0. ring.
Qed.

(** C9, with the value the code computes: for S = 100, K = 100, T = 1,
    r = 0, sigma = 0.2 and one step the call price is q (S u - K), which is
    9.9668 to four decimals, with u = e^0.2 = 1.2214, d = 0.8187 and
    q = 0.4502 to four decimals. *)
Theorem one_step_call_price :
  exists v : R,
    binomial_tree_price 100 100 1 0 0.2 1 "call" = Return v /\
    v = spec_q 0 0.2 1 * (100 * spec_u 0.2 1 - 100) /\
    Rabs (spec_u 0.2 1 - 1.2214) < 0.00005 /\
    Rabs (spec_d 0.2 1 - 0.8187) < 0.00005 /\
    Rabs (spec_q 0 0.2 1 - 0.4502) < 0.00005 /\
    Rabs (v - 9.9668) < 0.00005.
Proof.
  eexists. split; [apply one_step_call_value|]. split; [done|].
  destruct one_step_constants as (_ & -> & -> & ->).
  pose proof exp_fifth_bounds as [Hlo Hhi].
  set (u := exp 0.2) in *.
  assert (Hd : / u * u = 1) by (apply Rinv_l; lra).
  assert (Hq : / (u + 1) * (u + 1) = 1) by (apply Rinv_l; lra).
  repeat split; apply Rabs_def1; nra.
Qed.

(** C9 as stated fails: the price is more than 0.0077 above 9.9590. *)
Lemma one_step_call_price_counterexample :
  exists v : R,
    binomial_tree_price 100 100 1 0 0.2 1 "call" = Return v /\
    0.0077 < v - 9.9590.
Proof.
  eexists. split; [apply one_step_call_value|].
  destruct one_step_constants as (_ & -> & _ & ->).
  pose proof exp_fifth_bounds as [Hlo Hhi].
  set (u := exp 0.2) in *.
  assert (Hq : / (u + 1) * (u + 1) = 1) by (apply Rinv_l; lra).
  nra.
Qed.

(** * Further properties of the pricers, the grid and the script *)

(** ** The lattice as a tree of node values *)

Section tree.
Variables disc q : R.

Lemma spec_collapse_fmap_seq (f : nat -> R) (k m : nat) :
  spec_collapse disc q (f <$> seq k (S m)) = tree_step disc q f <$> seq k m.
Proof.
  revert k. induction m as [|m IH]; intros k; [done|].
  change (f <$> seq k (S (S m))) with (f k :: f (S k) :: (f <$> seq (S (S k)) m)).
  change (spec_collapse disc q (f k :: f (S k) :: (f <$> seq (S (S k)) m)))
    with (tree_step disc q f k
          :: spec_collapse disc q (f <$> seq (S k) (S m))).
  by rewrite IH.
Qed.

Lemma iter_spec_collapse_fmap_seq (f : nat -> R) (n m : nat) :
  Nat.iter n (spec_collapse disc q) (f <$> seq 0 (m + n))
  = tree_node disc q n f <$> seq 0 m.
Proof.
  revert m. induction n as [|n IH]; intros m.
  - by rewrite Nat.add_0_r.
  - rewrite Nat.iter_succ.
    replace (m + S n)%nat with (S m + n)%nat by lia.
    rewrite IH. apply spec_collapse_fmap_seq.
Qed.

Lemma tree_node_succ (f : nat -> R) (n j : nat) :
  tree_node disc q (S n) f j
  = disc * (q * tree_node disc q n f (S j) + (1 - q) * tree_node disc q n f j).
Proof. done. Qed.

Lemma tree_node_ext (f g : nat -> R) (n : nat) :
  (forall i, f i = g i) -> forall j, tree_node disc q n f j = tree_node disc q n g j.
Proof.
  intros Hfg. induction n as [|n IH]; intros j; [apply Hfg|].
  by rewrite !tree_node_succ, !IH.
Qed.

Lemma tree_node_linear (a b : R) (f g : nat -> R) (n j : nat) :
  tree_node disc q n (fun i => a * f i + b * g i) j
  = a * tree_node disc q n f j + b * tree_node disc q n g j.
Proof.
  revert j. induction n as [|n IH]; intros j; [done|].
  rewrite !tree_node_succ, !IH. ring.
Qed.

Lemma tree_node_geometric (c rho : R) (n j : nat) :
  tree_node disc q n (fun i => c * rho ^ i) j
  = c * (disc * (q * rho + (1 - q))) ^ n * rho ^ j.
Proof.
  revert j. induction n as [|n IH]; intros j.
  - unfold tree_node. simpl. ring.
  - rewrite tree_node_succ, !IH. simpl. ring.
Qed.

Lemma tree_node_mono (f g : nat -> R) (n : nat) :
  0 <= disc -> 0 <= q <= 1 ->
  (forall i, f i <= g i) -> forall j, tree_node disc q n f j <= tree_node disc q n g j.
Proof.
  intros Hdisc Hq Hfg. induction n as [|n IH]; intros j; [apply Hfg|].
  rewrite !tree_node_succ.
  apply Rmult_le_compat_l; [exact Hdisc|].
  pose proof (IH j). pose proof (IH (S j)). nra.
Qed.
End tree.

(** ** Finite sums and binomial weights *)

Lemma sum_list_app l1 l2 : sum_list (l1 ++ l2) = sum_list l1 + sum_list l2.
Proof. induction l1 as [|x l1 IH]; simpl; [lra|]. rewrite IH. lra. Qed.

Lemma sum_list_seq_first (h : nat -> R) (m : nat) :
  sum_list (h <$> seq 0 (S m)) = h 0%nat + sum_list ((fun i => h (S i)) <$> seq 0 m).
Proof.
  cbn [seq fmap list_fmap sum_list foldr]. f_equal.
  by rewrite <- fmap_S_seq, <- list_fmap_compose.
Qed.

Lemma sum_list_seq_last (h : nat -> R) (m : nat) :
  sum_list (h <$> seq 0 (S m)) = sum_list (h <$> seq 0 m) + h m.
Proof. rewrite seq_S, fmap_app, sum_list_app. simpl. lra. Qed.

Lemma sum_list_seq_ext (h h' : nat -> R) (m : nat) :
  (forall i, (i < m)%nat -> h i = h' i) ->
  sum_list (h <$> seq 0 m) = sum_list (h' <$> seq 0 m).
Proof.
  intros Hext. induction m as [|m IH]; [done|].
  rewrite !sum_list_seq_last, IH by (intros; apply Hext; lia).
  by rewrite Hext by lia.
Qed.

Lemma sum_list_seq_linear (a b : R) (h h' : nat -> R) (m : nat) :
  sum_list ((fun i => a * h i + b * h' i) <$> seq 0 m)
  = a * sum_list (h <$> seq 0 m) + b * sum_list (h' <$> seq 0 m).
Proof.
  induction m as [|m IH]; [simpl; lra|].
  rewrite !sum_list_seq_last, IH. ring.
Qed.

Lemma C_n_0 n : C n 0 = 1.
Proof.
  unfold C. rewrite Nat.sub_0_r. simpl fact. simpl INR.
  field. apply INR_fact_neq_0.
Qed.

Lemma C_n_n n : C n n = 1.
Proof.
  unfold C. rewrite Nat.sub_diag. simpl fact. simpl INR.
  field. apply INR_fact_neq_0.
Qed.

Lemma binomial_weight_first q n : binomial_weight q (S n) 0 = (1 - q) * binomial_weight q n 0.
Proof. unfold binomial_weight. rewrite !C_n_0, !Nat.sub_0_r. simpl. ring. Qed.

Lemma binomial_weight_last q n :
  binomial_weight q (S n) (S n) = q * binomial_weight q n n.
Proof. unfold binomial_weight. rewrite !C_n_n, !Nat.sub_diag. simpl. ring. Qed.

Lemma binomial_weight_pascal q n i :
  (i < n)%nat ->
  binomial_weight q (S n) (S i)
  = q * binomial_weight q n i + (1 - q) * binomial_weight q n (S i).
Proof.
  intros Hi. unfold binomial_weight. rewrite <- (pascal n i Hi).
  replace (S n - S i)%nat with (n - i)%nat by lia.
  replace (n - i)%nat with (S (n - S i)) by lia.
  simpl. ring.
Qed.

(** One more step splits every path by its last move. *)
Lemma binomial_weight_step q (g : nat -> R) (n : nat) :
  sum_list ((fun i => binomial_weight q (S n) i * g i) <$> seq 0 (S (S n)))
  = q * sum_list ((fun i => binomial_weight q n i * g (S i)) <$> seq 0 (S n))
    + (1 - q) * sum_list ((fun i => binomial_weight q n i * g i) <$> seq 0 (S n)).
Proof.
  rewrite sum_list_seq_first, sum_list_seq_last.
  rewrite (sum_list_seq_last (fun i => binomial_weight q n i * g (S i))).
  rewrite (sum_list_seq_first (fun i => binomial_weight q n i * g i)).
  rewrite binomial_weight_first, binomial_weight_last.
  rewrite (sum_list_seq_ext _
             (fun i => q * (binomial_weight q n i * g (S i))
                       + (1 - q) * (binomial_weight q n (S i) * g (S i)))).
  - rewrite sum_list_seq_linear. ring.
  - intros i Hi. rewrite binomial_weight_pascal by exact Hi. ring.
Qed.

Lemma tree_node_closed_form disc q (f : nat -> R) (n j : nat) :
  tree_node disc q n f j
  = disc ^ n * sum_list ((fun i => binomial_weight q n i * f (j + i)%nat) <$> seq 0 (S n)).
Proof.
  revert j. induction n as [|n IH]; intros j.
  - unfold tree_node, binomial_weight. simpl. rewrite C_n_0, Nat.add_0_r. lra.
  - rewrite tree_node_succ, !IH.
    rewrite (binomial_weight_step q (fun i => f (j + i)%nat)).
    rewrite (sum_list_seq_ext (fun i => binomial_weight q n i * f (S j + i)%nat)
               (fun i => binomial_weight q n i * f (j + S i)%nat))
      by (intros; do 2 f_equal; lia).
    simpl. ring.
Qed.

(** ** The lattice pricer: constants, parity, closed form, bounds *)

Lemma exp_pow_nat (x : R) (n : nat) : exp x ^ n = exp (INR n * x).
Proof.
  induction n as [|n IH].
  - simpl. by rewrite Rmult_0_l, exp_0.
  - rewrite S_INR. simpl. rewrite IH, <- exp_plus. f_equal. ring.
Qed.

Lemma exp_le x y : x <= y -> exp x <= exp y.
Proof.
  intros [Hlt| ->]; [left; by apply exp_increasing|right; reflexivity].
Qed.

Lemma code_terminal_values_fmap option_type S K u d N :
  code_terminal_values option_type S K u d N
  = (fun i => code_payoff option_type K (spot_at u d (S * d ^ N) i)) <$> seq 0 (N + 1).
Proof.
  unfold code_terminal_values, code_payoff, np_maximum, np_sub_scalar, np_rsub_scalar.
  case_decide; by rewrite <- !list_fmap_compose.
Qed.

(** The price as the value of the root node. *)
Lemma binomial_tree_price_tree_node S K T r sigma steps option_type :
  (1 <= steps)%Z ->
  let N := Z.to_nat steps in
  let dt := spec_dt T N in
  let u := spec_u sigma dt in
  let d := spec_d sigma dt in
  binomial_tree_price S K T r sigma steps option_type
  = Return (tree_node (exp (- (r * dt))) (spec_q r sigma dt) N
              (fun i => code_payoff option_type K (spot_at u d (S * d ^ N) i)) 0).
Proof.
  intros Hsteps N dt u d.
  destruct (binomial_tree_price_value S K T r sigma steps option_type Hsteps)
    as (v & Hv & ->).
  fold N dt u d in Hv.
  rewrite code_terminal_values_fmap in Hv.
  replace (N + 1)%nat with (1 + N)%nat in Hv by lia.
  rewrite iter_spec_collapse_fmap_seq in Hv.
  by injection Hv as <-.
Qed.

(** The constants of a lattice with at least one step. *)
Lemma lattice_discount T r (N : nat) :
  (1 <= N)%nat -> exp (- (r * spec_dt T N)) ^ N = exp (- (r * T)).
Proof.
  intros HN. rewrite exp_pow_nat. f_equal. unfold spec_dt.
  assert (INR N <> 0) by (apply not_0_INR; lia). by field.
Qed.

Lemma lattice_factors sigma dt :
  0 < spec_d sigma dt /\ spec_d sigma dt * spec_u sigma dt = 1.
Proof.
  unfold spec_d. pose proof (exp_pos (sigma * sqrt dt)) as Hu.
  fold (spec_u sigma dt) in Hu. split.
  - apply Rdiv_lt_0_compat; lra.
  - field. lra.
Qed.

Lemma lattice_spread sigma dt :
  0 < sigma -> 0 < dt -> spec_d sigma dt < 1 < spec_u sigma dt.
Proof.
  intros Hsigma Hdt.
  assert (Hu : 1 < spec_u sigma dt).
  { unfold spec_u. rewrite <- exp_0. apply exp_increasing.
    apply Rmult_lt_0_compat; [exact Hsigma|by apply sqrt_lt_R0]. }
  destruct (lattice_factors sigma dt) as [Hd Hdu]. split; [nra|exact Hu].
Qed.

(** The up-probability makes the discounted spot a martingale. *)
Lemma lattice_martingale r sigma dt :
  0 < sigma -> 0 < dt ->
  spec_q r sigma dt * spec_u sigma dt + (1 - spec_q r sigma dt) * spec_d sigma dt
  = exp (r * dt).
Proof.
  intros Hsigma Hdt. destruct (lattice_spread sigma dt Hsigma Hdt).
  unfold spec_q. field. lra.
Qed.

Lemma lattice_probability r sigma dt :
  0 < sigma -> 0 < dt -> 0 <= r -> r * dt <= sigma * sqrt dt ->
  0 <= spec_q r sigma dt <= 1.
Proof.
  intros Hsigma Hdt Hr Hrdt.
  destruct (lattice_spread sigma dt Hsigma Hdt) as [Hd Hu].
  assert (H1 : 1 <= exp (r * dt))
    by (rewrite <- exp_0; apply exp_le; nra).
  assert (H2 : exp (r * dt) <= spec_u sigma dt) by (by apply exp_le).
  unfold spec_q. split.
  - apply Rmult_le_pos; [lra|]. left. apply Rinv_0_lt_compat. lra.
  - apply (Rmult_le_reg_r (spec_u sigma dt - spec_d sigma dt)); [lra|].
    unfold Rdiv. rewrite Rmult_assoc, Rinv_l; lra.
Qed.

Lemma spec_dt_pos T (N : nat) : 0 < T -> (1 <= N)%nat -> 0 < spec_dt T N.
Proof.
  intros HT HN. unfold spec_dt. apply Rdiv_lt_0_compat; [exact HT|].
  apply lt_0_INR. lia.
Qed.

(** The discounted expectation of the terminal spot is today's spot, that
    of a constant is the discounted constant. *)
Lemma tree_node_spot S r sigma dt (N : nat) :
  0 < sigma -> 0 < dt ->
  tree_node (exp (- (r * dt))) (spec_q r sigma dt) N
    (spot_at (spec_u sigma dt) (spec_d sigma dt) (S * spec_d sigma dt ^ N)) 0
  = S.
Proof.
  intros Hsigma Hdt. unfold spot_at.
  rewrite tree_node_geometric.
  set (u := spec_u sigma dt). set (d := spec_d sigma dt).
  set (q := spec_q r sigma dt).
  destruct (lattice_factors sigma dt) as [Hd Hdu]. fold d u in Hd, Hdu.
  pose proof (lattice_martingale r sigma dt Hsigma Hdt) as Hm. fold q u d in Hm.
  replace (S * d ^ N * (exp (- (r * dt)) * (q * (u / d) + (1 - q))) ^ N * (u / d) ^ 0)
    with (S * (d * (exp (- (r * dt)) * (q * (u / d) + (1 - q)))) ^ N)
    by (rewrite (Rpow_mult_distr d); simpl; ring).
  replace (d * (exp (- (r * dt)) * (q * (u / d) + (1 - q))))
    with (exp (- (r * dt)) * (q * u + (1 - q) * d)) by (field; lra).
  rewrite Hm, <- exp_plus, Rplus_opp_l, exp_0, pow1. ring.
Qed.

Lemma tree_node_const disc q (c : R) (N : nat) :
  tree_node disc q N (fun _ => c) 0 = c * disc ^ N.
Proof.
  rewrite (tree_node_ext disc q _ (fun i => c * 1 ^ i))
    by (intros; rewrite pow1; ring).
  rewrite tree_node_geometric. simpl.
  replace (disc * (q * 1 + (1 - q))) with disc by ring. ring.
Qed.

Lemma code_payoff_call_minus_put K s :
  code_payoff "call" K s - code_payoff "put" K s = s - K.
Proof.
  unfold code_payoff. rewrite decide_True, decide_False by done.
  unfold Rmax. repeat destruct (Rle_dec _ _); lra.
Qed.

Lemma code_payoff_nonneg option_type K s : 0 <= code_payoff option_type K s.
Proof. unfold code_payoff. case_decide; apply Rmax_l. Qed.

(** Call minus put, for the lattice. *)
Lemma lattice_parity S K T r sigma (N : nat) :
  0 < T -> 0 < sigma -> (1 <= N)%nat ->
  let dt := spec_dt T N in
  let u := spec_u sigma dt in
  let d := spec_d sigma dt in
  tree_node (exp (- (r * dt))) (spec_q r sigma dt) N
    (fun i => code_payoff "call" K (spot_at u d (S * d ^ N) i)) 0
  - tree_node (exp (- (r * dt))) (spec_q r sigma dt) N
      (fun i => code_payoff "put" K (spot_at u d (S * d ^ N) i)) 0
  = S - K * exp (- (r * T)).
Proof.
  intros HT Hsigma HN dt u d.
  pose proof (spec_dt_pos T N HT HN) as Hdt. fold dt in Hdt.
  set (disc := exp (- (r * dt))). set (q := spec_q r sigma dt).
  set (call := fun i => code_payoff "call" K (spot_at u d (S * d ^ N) i)).
  set (put := fun i => code_payoff "put" K (spot_at u d (S * d ^ N) i)).
  transitivity (tree_node disc q N (fun i => 1 * call i + -1 * put i) 0);
    [rewrite tree_node_linear; ring|].
  rewrite (tree_node_ext disc q _
             (fun i => 1 * spot_at u d (S * d ^ N) i + - K * (fun _ => 1) i))
    by (intros i; unfold call, put;
        pose proof (code_payoff_call_minus_put K (spot_at u d (S * d ^ N) i)); lra).
  rewrite tree_node_linear, tree_node_const.
  unfold disc, q, u, d. rewrite tree_node_spot by done.
  fold dt. unfold dt. rewrite lattice_discount by done. ring.
Qed.

Lemma no_arbitrage_probability T r sigma (N : nat) :
  0 < T -> 0 < sigma -> (1 <= N)%nat -> 0 <= r ->
  r * spec_dt T N <= sigma * sqrt (spec_dt T N) ->
  0 <= spec_q r sigma (spec_dt T N) <= 1.
Proof.
  intros HT Hsigma HN Hr Hrdt.
  apply lattice_probability; [done|by apply spec_dt_pos|done|done].
Qed.



(** X2: put-call parity on the lattice.  For T > 0, sigma > 0 and at
    least one step, call - put = S - K e^(-rT), whatever S, K and r are. *)
Theorem binomial_tree_put_call_parity (S K T r sigma : R) (steps : Z) :
  0 < T -> 0 < sigma -> (1 <= steps)%Z ->
  exists c p : R,
    binomial_tree_price S K T r sigma steps "call" = Return c /\
    binomial_tree_price S K T r sigma steps "put" = Return p /\
    c - p = S - K * exp (- (r * T)).
Proof.
  intros HT Hsigma Hsteps.
  rewrite !binomial_tree_price_tree_node by done.
  eexists _, _. split; [done|]. split; [done|].
  apply lattice_parity; [done|done|lia].
Qed.

Lemma binomial_tree_put_call_parity_witness :
  exists c p : R,
    binomial_tree_price 100 90 1 0.05 0.2 50 "call" = Return c /\
    binomial_tree_price 100 90 1 0.05 0.2 50 "put" = Return p /\
    c - p = 100 - 90 * exp (- (0.05 * 1)).
Proof. apply (binomial_tree_put_call_parity 100 90 1 0.05 0.2 50); lra || lia. Defined.

(** X3: with at least one step the lattice price is the discounted
    risk-neutral expectation of the terminal payoff,
    e^(-rT) sum_{i=0..N} C(N,i) q^i (1-q)^(N-i) payoff(S u^i d^(N-i)),
    where the payoff is the one line 31 selects for the option type. *)
Theorem binomial_tree_price_closed_form (S K T r sigma : R) (steps : Z)
    (option_type : string) :
  (1 <= steps)%Z ->
  let N := Z.to_nat steps in
  let dt := T / IZR steps in
  let u := exp (sigma * sqrt dt) in
  let d := 1 / u in
  let q := (exp (r * dt) - d) / (u - d) in
  binomial_tree_price S K T r sigma steps option_type
  = Return (exp (- (r * T))
            * sum_list ((fun i => C N i * q ^ i * (1 - q) ^ (N - i)
                                  * code_payoff option_type K (S * u ^ i * d ^ (N - i)))
                        <$> seq 0 (N + 1))).
Proof.
  intros Hsteps N dt u d q.
  rewrite binomial_tree_price_tree_node by done. fold N.
  assert (Hdt : dt = spec_dt T N) by (unfold dt; apply spec_dt_steps; lia).
  rewrite <- Hdt.
  change (spec_u sigma dt) with u. change (spec_d sigma dt) with d.
  change (spec_q r sigma dt) with q.
  rewrite tree_node_closed_form, Hdt, lattice_discount by lia.
  do 2 f_equal.
  replace (N + 1)%nat with (Datatypes.S N) by lia.
  apply sum_list_seq_ext. intros i Hi. unfold binomial_weight. f_equal.
  f_equal. unfold spot_at. simpl Nat.add.
  assert (Hd : d <> 0).
  { destruct (lattice_factors sigma dt) as [Hd _].
    change (spec_d sigma dt) with d in Hd. lra. }
  replace N with (i + (N - i))%nat at 1 by lia.
  rewrite pow_add. unfold Rdiv. rewrite Rpow_mult_distr, pow_inv.
  field. by apply pow_nonzero.
Qed.

Lemma binomial_tree_price_closed_form_witness :
  let u := exp (0.2 * sqrt (1 / 2)) in
  let d := 1 / u in
  let q := (exp (0.05 * (1 / 2)) - d) / (u - d) in
  binomial_tree_price 100 100 1 0.05 0.2 2 "put"
  = Return (exp (- (0.05 * 1))
            * sum_list ((fun i => C 2 i * q ^ i * (1 - q) ^ (2 - i)
                                  * code_payoff "put" 100 (100 * u ^ i * d ^ (2 - i)))
                        <$> seq 0 (2 + 1))).
Proof. apply (binomial_tree_price_closed_form 100 100 1 0.05 0.2 2 "put"). lia. Defined.

Lemma code_payoff_scale option_type K s c :
  0 <= c -> code_payoff option_type (c * K) (c * s) = c * code_payoff option_type K s.
Proof.
  intros Hc. unfold code_payoff.
  case_decide.
  - rewrite <- (RmaxRmult 0 (s - K) c Hc). f_equal; ring.
  - rewrite <- (RmaxRmult 0 (K - s) c Hc). f_equal; ring.
Qed.

Lemma code_payoff_strike K K' s :
  K <= K' ->
  code_payoff "call" K' s <= code_payoff "call" K s /\
  code_payoff "put" K s <= code_payoff "put" K' s.
Proof.
  intros HK. unfold code_payoff.
  rewrite !decide_True, !decide_False by done.
  split; apply Rle_max_compat_l; lra.
Qed.

(** X4: when 0 <= r and r dt <= sigma sqrt(dt), so that q is a
    probability, the lattice prices are at least their discounted intrinsic
    values: call >= max(0, S - K e^(-rT)) and put >= max(0, K e^(-rT) - S);
    in particular neither is negative. *)
Theorem binomial_tree_price_bounds (S K T r sigma : R) (steps : Z) :
  0 < T -> 0 < sigma -> 0 <= r -> (1 <= steps)%Z ->
  r * (T / IZR steps) <= sigma * sqrt (T / IZR steps) ->
  exists c p : R,
    binomial_tree_price S K T r sigma steps "call" = Return c /\
    binomial_tree_price S K T r sigma steps "put" = Return p /\
    Rmax 0 (S - K * exp (- (r * T))) <= c /\
    Rmax 0 (K * exp (- (r * T)) - S) <= p.
Proof.
  intros HT Hsigma Hr Hsteps Hrdt.
  rewrite spec_dt_steps in Hrdt by lia.
  rewrite !binomial_tree_price_tree_node by done.
  set (N := Z.to_nat steps) in *. set (dt := spec_dt T N) in *.
  eexists _, _. split; [done|]. split; [done|].
  pose proof (lattice_parity S K T r sigma N HT Hsigma ltac:(lia)) as Hpar.
  cbv zeta in Hpar. fold dt in Hpar.
  assert (Hq : 0 <= spec_q r sigma dt <= 1)
    by (apply no_arbitrage_probability; [done|done|lia|done|done]).
  assert (Hdisc : 0 <= exp (- (r * dt))) by (left; apply exp_pos).
  assert (Hpos : forall option_type,
            0 <= tree_node (exp (- (r * dt))) (spec_q r sigma dt) N
                   (fun i => code_payoff option_type K
                               (spot_at (spec_u sigma dt) (spec_d sigma dt)
                                  (S * spec_d sigma dt ^ N) i)) 0).
  { intros option_type.
    rewrite <- (Rmult_0_l (exp (- (r * dt)) ^ N)).
    rewrite <- (tree_node_const _ (spec_q r sigma dt)).
    apply tree_node_mono; [done|done|].
    intros i. apply code_payoff_nonneg. }
  pose proof (Hpos "call"). pose proof (Hpos "put").
  split; apply Rmax_lub; lra.
Qed.

Lemma binomial_tree_price_bounds_witness :
  exists c p : R,
    binomial_tree_price 100 90 1 0 0.2 1 "call" = Return c /\
    binomial_tree_price 100 90 1 0 0.2 1 "put" = Return p /\
    Rmax 0 (100 - 90 * exp (- (0 * 1))) <= c /\
    Rmax 0 (90 * exp (- (0 * 1)) - 100) <= p.
Proof.
  apply (binomial_tree_price_bounds 100 90 1 0 0.2 1); try lra; try lia.
  rewrite Rmult_0_l. apply Rmult_le_pos; [lra|apply sqrt_pos].
Defined.

(** X5: under the same condition, raising the strike does not raise the
    lattice call price and does not lower the lattice put price. *)
Theorem binomial_tree_price_strike_monotone (S K K' T r sigma : R) (steps : Z) :
  0 < T -> 0 < sigma -> 0 <= r -> (1 <= steps)%Z ->
  r * (T / IZR steps) <= sigma * sqrt (T / IZR steps) ->
  K <= K' ->
  exists c c' p p' : R,
    binomial_tree_price S K T r sigma steps "call" = Return c /\
    binomial_tree_price S K' T r sigma steps "call" = Return c' /\
    binomial_tree_price S K T r sigma steps "put" = Return p /\
    binomial_tree_price S K' T r sigma steps "put" = Return p' /\
    c' <= c /\ p <= p'.
Proof.
  intros HT Hsigma Hr Hsteps Hrdt HK.
  rewrite spec_dt_steps in Hrdt by lia.
  rewrite !binomial_tree_price_tree_node by done.
  set (N := Z.to_nat steps) in *. set (dt := spec_dt T N) in *.
  eexists _, _, _, _. repeat (split; [done|]).
  assert (Hq : 0 <= spec_q r sigma dt <= 1)
    by (apply no_arbitrage_probability; [done|done|lia|done|done]).
  assert (Hdisc : 0 <= exp (- (r * dt))) by (left; apply exp_pos).
  split; apply tree_node_mono; try done; intros i;
    by apply code_payoff_strike.
Qed.

Lemma binomial_tree_price_strike_monotone_witness :
  exists c c' p p' : R,
    binomial_tree_price 100 90 1 0 0.2 1 "call" = Return c /\
    binomial_tree_price 100 110 1 0 0.2 1 "call" = Return c' /\
    binomial_tree_price 100 90 1 0 0.2 1 "put" = Return p /\
    binomial_tree_price 100 110 1 0 0.2 1 "put" = Return p' /\
    c' <= c /\ p <= p'.
Proof.
  apply (binomial_tree_price_strike_monotone 100 90 110 1 0 0.2 1); try lra; try lia.
  rewrite Rmult_0_l. apply Rmult_le_pos; [lra|apply sqrt_pos].
Defined.

(** X6: the lattice price is homogeneous of degree one in spot and
    strike: multiplying both by c >= 0 multiplies the price by c, for every
    option type and at least one step. *)
Theorem binomial_tree_price_homogeneous (c S K T r sigma : R) (steps : Z)
    (option_type : string) :
  0 <= c -> (1 <= steps)%Z ->
  exists v : R,
    binomial_tree_price S K T r sigma steps option_type = Return v /\
    binomial_tree_price (c * S) (c * K) T r sigma steps option_type = Return (c * v).
Proof.
  intros Hc Hsteps.
  rewrite !binomial_tree_price_tree_node by done.
  eexists. split; [done|]. f_equal.
  set (N := Z.to_nat steps). set (dt := spec_dt T N).
  rewrite (tree_node_ext _ _ _
             (fun i => c * code_payoff option_type K
                             (spot_at (spec_u sigma dt) (spec_d sigma dt)
                                (S * spec_d sigma dt ^ N) i)
                       + 0 * (fun _ => 0) i)).
  - rewrite tree_node_linear. ring.
  - intros i. rewrite <- code_payoff_scale by done.
    unfold spot_at. rewrite Rmult_0_l, Rplus_0_r. f_equal. ring.
Qed.

Lemma binomial_tree_price_homogeneous_witness :
  exists v : R,
    binomial_tree_price 100 90 1 0.05 0.2 50 "put" = Return v /\
    binomial_tree_price (2 * 100) (2 * 90) 1 0.05 0.2 50 "put" = Return (2 * v).
Proof.
  apply (binomial_tree_price_homogeneous 2 100 90 1 0.05 0.2 50 "put"); lra || lia.
Defined.

(** X7: the analytic price is homogeneous of degree one in spot and
    strike: for c and K not zero, multiplying S and K by c multiplies the
    call and the put price by c. *)
Theorem black_scholes_price_homogeneous (c S K T r sigma : R) (option_type : string) :
  c <> 0 -> K <> 0 -> option_type = "call" \/ option_type = "put" ->
  exists v : R,
    black_scholes_price S K T r sigma option_type = Return v /\
    black_scholes_price (c * S) (c * K) T r sigma option_type = Return (c * v).
Proof.
  intros Hc HK Hot.
  assert (HcK : c * K <> 0) by (by apply Rmult_integral_contrapositive_currified).
  rewrite !black_scholes_price_nonzero by done.
  assert (Hd1 : spec_d1 (c * S) (c * K) T r sigma = spec_d1 S K T r sigma).
  { unfold spec_d1. do 3 f_equal. by field. }
  destruct Hot as [-> | ->]; simpl; eexists; (split; [done|]); f_equal;
    unfold spec_analytic, spec_d2; rewrite Hd1; ring.
Qed.

Lemma black_scholes_price_homogeneous_witness :
  exists v : R,
    black_scholes_price 100 90 1 0.05 0.2 "call" = Return v /\
    black_scholes_price (2 * 100) (2 * 90) 1 0.05 0.2 "call" = Return (2 * v).
Proof.
  apply (black_scholes_price_homogeneous 2 100 90 1 0.05 0.2 "call");
    [lra|lra|by left].
Defined.

(** X18: put-call parity of the analytic prices in real arithmetic.  For
    S > 0, K > 0, T > 0 and sigma > 0 both prices exist and
    call - put = S - K e^(-rT), whatever r is. *)
Theorem black_scholes_put_call_parity (S K T r sigma : R) :
  0 < S -> 0 < K -> 0 < T -> 0 < sigma ->
  exists c p : R,
    black_scholes_price S K T r sigma "call" = Return c /\
    black_scholes_price S K T r sigma "put" = Return p /\
    c - p = S - K * exp (- (r * T)).
Proof.
  intros _ HK _ _.
  exists (spec_analytic Call S K T r sigma), (spec_analytic Put S K T r sigma).
  rewrite !black_scholes_price_nonzero by lra.
  split; [done|]. split; [done|].
  unfold spec_analytic. rewrite !norm_cdf_symm. ring.
Qed.

Lemma black_scholes_put_call_parity_witness :
  exists c p : R,
    black_scholes_price 100 100 1 0.05 0.2 "call" = Return c /\
    black_scholes_price 100 100 1 0.05 0.2 "put" = Return p /\
    c - p = 100 - 100 * exp (- (0.05 * 1)).
Proof. apply (black_scholes_put_call_parity 100 100 1 0.05 0.2); lra. Defined.

(** ** The grid evaluator: the first failure, empty ranges, dispatch *)

Lemma mapM_Raise_first {A B} (g : A -> result B) (xs : list A) (j : nat) (x : A)
    (e : exn) :
  xs !! j = Some x -> g x = Raise e ->
  (forall j' x', (j' < j)%nat -> xs !! j' = Some x' -> returns (g x')) ->
  mapM g xs = Raise e.
Proof.
  revert j. induction xs as [|x0 xs IH]; intros j Hj Hx Hbefore; [done|].
  rewrite mapM_cons. destruct j as [|j].
  - injection Hj as ->. by rewrite Hx.
  - destruct (Hbefore 0%nat x0) as [y Hy]; [lia|done|].
    rewrite Hy, bind_Return.
    rewrite (IH j); [done|done|done|].
    intros j' x' Hj' Hx'. apply (Hbefore (S j')); [lia|done].
Qed.

Lemma spec_grid_Raise_first (price : R -> R -> result R) (S_range vol_range : list R)
    (i j : nat) (sigma S : R) (e : exn) :
  vol_range !! i = Some sigma -> S_range !! j = Some S ->
  price S sigma = Raise e ->
  (forall i' j' sigma' S',
     (i' < i)%nat \/ (i' = i /\ (j' < j)%nat) ->
     vol_range !! i' = Some sigma' -> S_range !! j' = Some S' ->
     returns (price S' sigma')) ->
  spec_grid price S_range vol_range = Raise e.
Proof.
  intros Hsigma HS He Hbefore. unfold spec_grid.
  apply (mapM_Raise_first _ vol_range i sigma); [done| |].
  - apply (mapM_Raise_first _ S_range j S); [done|done|].
    intros j' S' Hj' HS'. apply (Hbefore i j'); [by right|done|done].
  - intros i' sigma' Hi' Hsigma'. apply mapM_returns.
    intros S' [j' HS']%list_elem_of_lookup.
    apply (Hbefore i' j'); [by left|done|done].
Qed.

(** X8: the grid evaluator fails fast.  If the pricer raises on the cell
    of row i and column j and returns on every cell before it in row-major
    order, the loops and generate_heatmap raise that very error. *)
Theorem heatmap_prices_first_failure (S_range vol_range : list R) (K T r : R)
    (model_func : callable) (model_params : option (gmap string Z))
    (steps : option Z) (option_type : option string)
    (i j : nat) (sigma S : R) (e : exn) :
  vol_range !! i = Some sigma -> S_range !! j = Some S ->
  cell_price model_func K T r (default default_steps steps)
    (default default_option_type option_type) S sigma = Raise e ->
  (forall i' j' sigma' S',
     (i' < i)%nat \/ (i' = i /\ (j' < j)%nat) ->
     vol_range !! i' = Some sigma' -> S_range !! j' = Some S' ->
     returns (cell_price model_func K T r (default default_steps steps)
                (default default_option_type option_type) S' sigma')) ->
  heatmap_prices S_range vol_range K T r model_func model_params steps option_type
    = Raise e /\
  generate_heatmap S_range vol_range K T r model_func model_params steps option_type
    = Raise e.
Proof.
  intros Hsigma HS He Hbefore.
  assert (Hgrid : heatmap_prices S_range vol_range K T r model_func model_params
                    steps option_type = Raise e).
  { rewrite heatmap_prices_spec_grid.
    by apply (spec_grid_Raise_first _ _ _ i j sigma S). }
  split; [exact Hgrid|].
  by rewrite generate_heatmap_after_loops, Hgrid.
Qed.

Lemma heatmap_prices_first_failure_witness :
  let strike_per_spot :=
    {| fn_name := "strike_per_spot";
       fn_call6 := fun S K T r sigma option_type => py_truediv K S;
       fn_call7 := fun _ _ _ _ _ _ _ => Raise TypeError |} in
  heatmap_prices [100; 0; 50] [0.2] 100 1 0.05 strike_per_spot None None None
    = Raise ZeroDivisionError /\
  generate_heatmap [100; 0; 50] [0.2] 100 1 0.05 strike_per_spot None None None
    = Raise ZeroDivisionError.
Proof.
  intros strike_per_spot.
  apply (heatmap_prices_first_failure [100; 0; 50] [0.2] 100 1 0.05
           strike_per_spot None None None 0 1 0.2 0 ZeroDivisionError).
  - reflexivity.
  - reflexivity.
  - unfold cell_price. rewrite decide_False by done. apply py_truediv_zero.
  - intros i' j' sigma' S' [Hi|[_ Hj]] _ HS; [lia|].
    assert (j' = 0%nat) as -> by lia. injection HS as <-.
    unfold cell_price. rewrite decide_False by done.
    simpl fn_call6. rewrite py_truediv_nonzero by lra. apply returns_Return.
Defined.

Lemma spec_grid_no_spots (price : R -> R -> result R) (vol_range : list R) :
  spec_grid price [] vol_range = Return (replicate (length vol_range) []).
Proof.
  unfold spec_grid. induction vol_range as [|sigma vol_range IH]; [done|].
  rewrite mapM_cons. by rewrite IH.
Qed.

(** X9: with an empty spot range or an empty volatility range the pricer
    is never called: the matrix has one empty row per volatility (or no
    row), and generate_heatmap raises NameError for sns whatever the
    callable and the option type are. *)
Theorem generate_heatmap_empty_range (S_range vol_range : list R) (K T r : R)
    (model_func : callable) (model_params : option (gmap string Z))
    (steps : option Z) (option_type : option string) :
  heatmap_prices [] vol_range K T r model_func model_params steps option_type
    = Return (replicate (length vol_range) []) /\
  heatmap_prices S_range [] K T r model_func model_params steps option_type
    = Return [] /\
  generate_heatmap [] vol_range K T r model_func model_params steps option_type
    = Raise (NameError "sns") /\
  generate_heatmap S_range [] K T r model_func model_params steps option_type
    = Raise (NameError "sns").
Proof.
  assert (H1 : heatmap_prices [] vol_range K T r model_func model_params steps
                 option_type = Return (replicate (length vol_range) []))
    by (rewrite heatmap_prices_spec_grid; apply spec_grid_no_spots).
  assert (H2 : heatmap_prices S_range [] K T r model_func model_params steps
                 option_type = Return [])
    by (by rewrite heatmap_prices_spec_grid).
  split; [done|]. split; [done|]. split.
  - by rewrite generate_heatmap_after_loops, H1.
  - by rewrite generate_heatmap_after_loops, H2.
Qed.

(** X10: the steps argument reaches the pricer only when the callable's
    __name__ is "binomial_tree_price": for any other callable the matrix
    does not depend on steps and every cell is the six-argument call. *)
Theorem heatmap_prices_steps_by_name (S_range vol_range : list R) (K T r : R)
    (model_func : callable) (model_params : option (gmap string Z))
    (steps steps' : option Z) (option_type : option string) :
  fn_name model_func <> "binomial_tree_price" ->
  heatmap_prices S_range vol_range K T r model_func model_params steps option_type
  = heatmap_prices S_range vol_range K T r model_func model_params steps' option_type
  /\ heatmap_prices S_range vol_range K T r model_func model_params steps option_type
     = spec_grid (fun S sigma =>
                    fn_call6 model_func S K T r sigma
                      (default default_option_type option_type))
         S_range vol_range.
Proof.
  intros Hname.
  assert (Hcell : forall n,
            heatmap_prices S_range vol_range K T r model_func model_params n
              option_type
            = spec_grid (fun S sigma =>
                           fn_call6 model_func S K T r sigma
                             (default default_option_type option_type))
                S_range vol_range).
  { intros n. rewrite heatmap_prices_spec_grid. unfold spec_grid, cell_price.
    by destruct (decide (fn_name model_func = "binomial_tree_price")). }
  split; [by rewrite !Hcell|apply Hcell].
Qed.

Lemma heatmap_prices_steps_by_name_witness :
  heatmap_prices [100] [0.2] 100 1 0.05 black_scholes_fn None (Some 10%Z) None
  = heatmap_prices [100] [0.2] 100 1 0.05 black_scholes_fn None (Some 200%Z) None
  /\ heatmap_prices [100] [0.2] 100 1 0.05 black_scholes_fn None (Some 10%Z) None
     = spec_grid (fun S sigma =>
                    fn_call6 black_scholes_fn S 100 1 0.05 sigma
                      (default default_option_type None))
         [100] [0.2].
Proof.
  apply (heatmap_prices_steps_by_name [100] [0.2] 100 1 0.05 black_scholes_fn None
           (Some 10%Z) (Some 200%Z) None).
  done.
Defined.

(** ** Ranges *)

Lemma Rceil_spec (x : R) : IZR (Rceil x) - 1 < x <= IZR (Rceil x).
Proof.
  unfold Rceil. rewrite opp_IZR.
  destruct (base_Int_part (- x)) as [H1 H2]. lra.
Qed.

Lemma Rceil_IZR (n : Z) : Rceil (IZR n) = n.
Proof.
  unfold Rceil. rewrite <- opp_IZR.
  rewrite <- (Int_part_spec (IZR (- n)) (- n)); [lia|lra].
Qed.

Lemma np_arange_lookup (start stop : R) (k : nat) (x : R) :
  np_arange start stop !! k = Some x ->
  x = start + INR k /\ IZR (Z.of_nat k) < IZR (Rceil (stop - start)).
Proof.
  unfold np_arange. rewrite list_lookup_fmap.
  destruct (seq 0 _ !! k) as [k'|] eqn:Hk; [|done].
  apply lookup_seq in Hk as [-> Hk]. intros [= <-]. split; [done|].
  apply IZR_lt. lia.
Qed.

Lemma np_arange_bounds (start stop x : R) :
  x ∈ np_arange start stop -> start <= x < stop.
Proof.
  intros [k Hk]%list_elem_of_lookup.
  apply np_arange_lookup in Hk as [-> Hk].
  rewrite <- INR_IZR_INZ in Hk.
  pose proof (Rceil_spec (stop - start)). pose proof (pos_INR k).
  assert (INR k + 1 <= IZR (Rceil (stop - start))).
  { rewrite INR_IZR_INZ in *. rewrite <- plus_IZR. apply IZR_le.
    apply lt_IZR in Hk. lia. }
  lra.
Qed.

Lemma np_arange_length (start stop : R) :
  length (np_arange start stop) = Z.to_nat (Rceil (stop - start)).
Proof. unfold np_arange. by rewrite length_fmap, length_seq. Qed.

Lemma np_arange_head (start stop : R) :
  start < stop -> np_arange start stop !! 0%nat = Some start.
Proof.
  intros Hlt. unfold np_arange. rewrite list_lookup_fmap.
  pose proof (Rceil_spec (stop - start)) as [_ Hc].
  assert (0 < Rceil (stop - start))%Z by (apply lt_IZR; lra).
  rewrite lookup_seq_lt by lia. simpl. f_equal. lra.
Qed.

(** The samples of [np.linspace] for at least two of them. *)
Lemma np_linspace_samples (start stop : R) (num : Z) :
  (2 <= num)%Z ->
  exists l : list R,
    np_linspace start stop num = Return l /\
    length l = Z.to_nat num /\
    forall i : nat, (i < Z.to_nat num)%nat ->
      l !! i = Some (start + INR i * ((stop - start) / IZR (num - 1))).
Proof.
  intros Hnum. unfold np_linspace.
  rewrite decide_False by lia. cbv zeta.
  rewrite !decide_True by lia.
  set (y := (fun i => INR i * ((stop - start) / IZR (num - 1)) + start)
            <$> seq 0 (Z.to_nat num)).
  assert (Hy : length y = Z.to_nat num)
    by (unfold y; by rewrite length_fmap, length_seq).
  eexists. split; [done|]. split; [by rewrite length_insert|].
  intros i Hi.
  destruct (decide (i = Z.to_nat num - 1)%nat) as [->|Hne].
  - rewrite list_lookup_insert_eq by lia. f_equal.
    assert (Hn : INR (Z.to_nat num - 1) = IZR (num - 1)).
    { rewrite INR_IZR_INZ. f_equal. lia. }
    rewrite Hn.
    assert (IZR (num - 1) <> 0) by (apply not_0_IZR; lia).
    by field.
  - rewrite list_lookup_insert_ne by done.
    unfold y. rewrite list_lookup_fmap, lookup_seq_lt by lia. simpl.
    f_equal. ring.
Qed.

(** X11: for inputs within the widgets' bounds, vol_range has vol_steps
    evenly spaced volatilities, the first vol_min and the last vol_max, each
    between vol_min and vol_max and so at least 0.1. *)
Theorem app_vol_range_samples (inp : App.inputs) :
  App.in_range inp ->
  exists l : list R,
    App.vol_range inp = Return l /\
    length l = Z.to_nat (App.vol_steps inp) /\
    head l = Some (App.vol_min inp) /\
    last l = Some (App.vol_max inp) /\
    (forall i sigma, l !! i = Some sigma ->
       sigma = App.vol_min inp
               + INR i * ((App.vol_max inp - App.vol_min inp)
                          / IZR (App.vol_steps inp - 1))) /\
    (forall sigma, sigma ∈ l ->
       0.1 <= App.vol_min inp <= sigma /\ sigma <= App.vol_max inp).
Proof.
  intros (_ & _ & Hmin & Hminmax & Hsteps & _).
  destruct (np_linspace_samples (App.vol_min inp) (App.vol_max inp)
              (App.vol_steps inp)) as (l & Hl & Hlen & Hsamples); [lia|].
  set (a := App.vol_min inp) in *. set (b := App.vol_max inp) in *.
  set (num := App.vol_steps inp) in *.
  assert (Hdiv : 0 < IZR (num - 1)) by (apply IZR_lt; lia).
  assert (Hat : forall i sigma, l !! i = Some sigma ->
            sigma = a + INR i * ((b - a) / IZR (num - 1))).
  { intros i sigma Hi.
    rewrite Hsamples in Hi by (apply lookup_lt_Some in Hi; lia).
    by injection Hi as <-. }
  exists l. split; [exact Hl|]. split; [exact Hlen|]. split; [|split; [|split]].
  - rewrite head_lookup, Hsamples by lia. f_equal. simpl. ring.
  - rewrite last_lookup, Hlen, Hsamples by lia. f_equal.
    assert (Hn : INR (Init.Nat.pred (Z.to_nat num)) = IZR (num - 1)).
    { rewrite INR_IZR_INZ. f_equal. lia. }
    rewrite Hn. field. lra.
  - exact Hat.
  - intros sigma [i Hi]%list_elem_of_lookup.
    pose proof (lookup_lt_Some _ _ _ Hi) as Hlt. rewrite Hlen in Hlt.
    apply Hat in Hi as ->.
    assert (Hi0 : 0 <= INR i) by apply pos_INR.
    assert (Hi1 : INR i <= IZR (num - 1)).
    { rewrite INR_IZR_INZ. apply IZR_le. lia. }
    assert (Hfrac : 0 <= INR i / IZR (num - 1) <= 1).
    { split.
      - apply Rmult_le_pos; [lra|]. left. by apply Rinv_0_lt_compat.
      - apply (Rmult_le_reg_r (IZR (num - 1))); [lra|].
        unfold Rdiv. rewrite Rmult_assoc, Rinv_l; lra. }
    replace (a + INR i * ((b - a) / IZR (num - 1)))
      with (a + (INR i / IZR (num - 1)) * (b - a)) by (field; lra).
    split; [split; [lra|nra]|nra].
Qed.

Lemma app_vol_range_samples_witness :
  exists l : list R,
    App.vol_range App.defaults = Return l /\
    length l = Z.to_nat (App.vol_steps App.defaults) /\
    head l = Some (App.vol_min App.defaults) /\
    last l = Some (App.vol_max App.defaults) /\
    (forall i sigma, l !! i = Some sigma ->
       sigma = App.vol_min App.defaults
               + INR i * ((App.vol_max App.defaults
                           - App.vol_min App.defaults)
                          / IZR (App.vol_steps App.defaults - 1))) /\
    (forall sigma, sigma ∈ l ->
       0.1 <= App.vol_min App.defaults <= sigma /\
       sigma <= App.vol_max App.defaults).
Proof.
  apply (app_vol_range_samples App.defaults).
  unfold App.in_range. simpl. repeat split; lra || lia.
Defined.

(** X12: for a non-negative S_steps, S_range starts at
    S_spot_price - S_steps and advances by 1; every spot is below
    S_spot_price + S_steps + 1, and there are between 2 S_steps + 1 and
    2 S_steps + 2 of them.  The first spot is not positive when
    S_spot_price <= S_steps. *)
Theorem app_S_range_spots (inp : App.inputs) :
  0 <= App.S_steps inp ->
  let lo := App.S_spot_price inp - App.S_steps inp in
  head (App.S_range inp) = Some lo /\
  (forall k x, App.S_range inp !! k = Some x -> x = lo + INR k) /\
  (forall x, x ∈ App.S_range inp ->
     lo <= x < App.S_spot_price inp + App.S_steps inp + 1) /\
  2 * App.S_steps inp + 1 <= INR (length (App.S_range inp))
    < 2 * App.S_steps inp + 2.
Proof.
  intros Hsteps lo. unfold App.S_range. fold lo.
  set (hi := App.S_spot_price inp + App.S_steps inp + 1).
  assert (Hlohi : hi - lo = 2 * App.S_steps inp + 1) by (unfold hi, lo; ring).
  split; [|split; [|split]].
  - rewrite head_lookup. apply np_arange_head. lra.
  - intros k x Hk. by apply np_arange_lookup in Hk as [-> _].
  - intros x Hx. by apply np_arange_bounds.
  - rewrite np_arange_length, INR_IZR_INZ.
    pose proof (Rceil_spec (hi - lo)) as [Hc1 Hc2].
    assert (0 <= Rceil (hi - lo))%Z by (apply le_IZR; lra).
    rewrite Z2Nat.id by done. lra.
Qed.

Lemma app_S_range_spots_witness :
  let lo := App.S_spot_price App.defaults - App.S_steps App.defaults in
  head (App.S_range App.defaults) = Some lo /\
  (forall k x, App.S_range App.defaults !! k = Some x -> x = lo + INR k) /\
  (forall x, x ∈ App.S_range App.defaults ->
     lo <= x < App.S_spot_price App.defaults + App.S_steps App.defaults + 1) /\
  2 * App.S_steps App.defaults + 1 <= INR (length (App.S_range App.defaults))
    < 2 * App.S_steps App.defaults + 2.
Proof. apply (app_S_range_spots App.defaults). simpl. lra. Defined.

(** ** Rounding *)

Lemma Int_part_bounds (x : R) : IZR (Int_part x) <= x < IZR (Int_part x) + 1.
Proof. destruct (base_Int_part x). lra. Qed.

Lemma Int_part_IZR (n : Z) : Int_part (IZR n) = n.
Proof. symmetry. apply Int_part_spec. lra. Qed.

Lemma np_rint_near (x : R) : Rabs (IZR (np_rint x) - x) <= 1 / 2.
Proof.
  unfold np_rint. pose proof (Int_part_bounds x) as Hx.
  set (n := Int_part x) in *.
  destruct (Rlt_dec (x - IZR n) (1 / 2)); [apply Rabs_le; lra|].
  destruct (Rlt_dec (1 / 2) (x - IZR n)).
  - rewrite plus_IZR. apply Rabs_le; lra.
  - destruct (Z.even n); [|rewrite plus_IZR]; apply Rabs_le; lra.
Qed.

Lemma np_rint_IZR (n : Z) : np_rint (IZR n) = n.
Proof.
  unfold np_rint. rewrite Int_part_IZR.
  destruct (Rlt_dec (IZR n - IZR n) (1 / 2)); [done|lra].
Qed.

Lemma Rabs_le_between (a b : R) : Rabs a <= b -> - b <= a <= b.
Proof. unfold Rabs. destruct (Rcase_abs a); lra. Qed.

Lemma np_round2_near (x : R) : Rabs (np_round2 x - x) <= 0.005.
Proof.
  unfold np_round2. pose proof (np_rint_near (x * 100)) as H.
  apply Rabs_le_between in H. apply Rabs_le. lra.
Qed.

Lemma np_round2_fixed (x : R) : np_round2 (np_round2 x) = np_round2 x.
Proof.
  unfold np_round2 at 1 3.
  replace (np_round2 x * 100) with (IZR (np_rint (x * 100)))
    by (unfold np_round2; lra).
  by rewrite np_rint_IZR.
Qed.

(** A tie goes to the even neighbour. *)
Example np_round2_tie_down : np_round2 0.125 = 0.12.
Proof.
  unfold np_round2, np_rint.
  replace (Int_part (0.125 * 100)) with 12%Z by (apply Int_part_spec; lra).
  destruct (Rlt_dec _ _); [lra|]. destruct (Rlt_dec _ _); [lra|].
  change (Z.even 12) with true. cbv iota. lra.
Qed.

Example np_round2_tie_up : np_round2 0.375 = 0.38.
Proof.
  unfold np_round2, np_rint.
  replace (Int_part (0.375 * 100)) with 37%Z by (apply Int_part_spec; lra).
  destruct (Rlt_dec _ _); [lra|]. destruct (Rlt_dec _ _); [lra|].
  change (Z.even 37) with false. cbv iota.
  change (37 + 1)%Z with 38%Z. lra.
Qed.

(** X13: round_values keeps the length of its argument, every result is
    a multiple of 0.01, and no element moves by more than 0.005. *)
Theorem round_values_near (arr : list R) :
  Forall2 (fun x y => (exists n : Z, y = IZR n / 100) /\ Rabs (y - x) <= 0.005)
    arr (round_values arr).
Proof.
  unfold round_values. apply Forall2_fmap_r, Forall_Forall2_diag, Forall_forall.
  intros x _. split; [by eexists|apply np_round2_near].
Qed.

(** X14: round_values is idempotent. *)
Theorem round_values_idempotent (arr : list R) :
  round_values (round_values arr) = round_values arr.
Proof.
  unfold round_values. rewrite <- list_fmap_compose.
  apply list_fmap_ext. intros i x _. apply np_round2_fixed.
Qed.

(** ** The script *)

Lemma run_display {A} (ev : st_event) (k : unit -> script A) (shown : list st_event) :
  run_script (display ev ≫= k) shown = run_script (k tt) (shown ++ [ev]).
Proof. done. Qed.

Lemma run_lift_Return {A B} (m : result A) (a : A) (k : A -> script B)
    (shown : list st_event) :
  m = Return a -> run_script (lift m ≫= k) shown = run_script (k a) shown.
Proof. by intros ->. Qed.

Lemma run_lift_Raise {A B} (m : result A) (e : exn) (k : A -> script B)
    (shown : list st_event) :
  m = Raise e -> run_script (lift m ≫= k) shown = (shown, Raise e).
Proof. by intros ->. Qed.

Lemma run_script_for_cons {A} (x : A) (xs : list A) (body : A -> script unit)
    (shown : list st_event) :
  run_script (script_for (x :: xs) body) shown
  = run_script (body x ≫= fun _ => script_for xs body) shown.
Proof. done. Qed.

Lemma run_bind_assoc {A B C} (m : script A) (k : A -> script B) (k' : B -> script C)
    (shown : list st_event) :
  run_script ((m ≫= k) ≫= k') shown = run_script (m ≫= fun a => k a ≫= k') shown.
Proof.
  unfold mbind, script_bind. simpl.
  destruct (run_script m shown) as [shown' [a|e]]; done.
Qed.

Lemma black_scholes_price_not_TypeError S K T r sigma option_type :
  black_scholes_price S K T r sigma option_type <> Raise TypeError.
Proof.
  destruct (Req_dec_T K 0) as [->|HK].
  - by rewrite black_scholes_price_zero_strike.
  - rewrite black_scholes_price_nonzero by done. by repeat case_decide.
Qed.

Lemma binomial_tree_price_not_TypeError S K T r sigma steps option_type :
  binomial_tree_price S K T r sigma steps option_type <> Raise TypeError.
Proof.
  destruct (decide (1 <= steps)%Z) as [Hs|Hs].
  - destruct (binomial_tree_price_value S K T r sigma steps option_type Hs)
      as (v & _ & ->). done.
  - rewrite binomial_tree_price_bad_steps by lia. by repeat case_decide.
Qed.

Lemma except_TypeError_other {A} (attempt handler : result A) :
  attempt <> Raise TypeError -> except_TypeError attempt handler = attempt.
Proof. by destruct attempt as [a|[]]. Qed.

Lemma pair_not_TypeError (c p : result R) :
  c <> Raise TypeError -> p <> Raise TypeError ->
  (call_price ← c; put_price ← p; Return (call_price, put_price))
  <> Raise TypeError.
Proof. destruct c as [x|e], p as [y|e']; simpl; congruence. Qed.

Lemma example_prices_black_scholes (inp : App.inputs) :
  App.example_prices inp App.black_scholes
  = (call_price ← black_scholes_price 100 (App.K inp) (App.T inp) (App.r inp) 0.2
                    "call";
     put_price ← black_scholes_price 100 (App.K inp) (App.T inp) (App.r inp) 0.2
                   "put";
     Return (call_price, put_price)).
Proof.
  unfold App.example_prices. cbv zeta.
  change (app_example_params (App.steps inp) (App.func App.black_scholes))
    with (∅ : gmap string Z).
  change (App.call_kw App.black_scholes)
    with (fun S K T r sigma (params : gmap string Z) option_type =>
            if decide (params = ∅)
            then black_scholes_price S K T r sigma option_type
            else Raise TypeError).
  cbv beta. rewrite !(decide_True (P := (∅ : gmap string Z) = ∅)) by done.
  apply except_TypeError_other, pair_not_TypeError;
    apply black_scholes_price_not_TypeError.
Qed.

Lemma example_prices_binomial_tree (inp : App.inputs) :
  App.example_prices inp App.binomial_tree
  = (call_price ← binomial_tree_price 100 (App.K inp) (App.T inp) (App.r inp) 0.2
                    (App.steps inp) "call";
     put_price ← binomial_tree_price 100 (App.K inp) (App.T inp) (App.r inp) 0.2
                   (App.steps inp) "put";
     Return (call_price, put_price)).
Proof.
  unfold App.example_prices. cbv zeta.
  change (app_example_params (App.steps inp) (App.func App.binomial_tree))
    with ({[ "steps" := App.steps inp ]} : gmap string Z).
  change (App.call_kw App.binomial_tree)
    with (fun S K T r sigma (params : gmap string Z) option_type =>
            match params !! "steps" with
            | Some n =>
                if decide (params = {[ "steps" := n ]})
                then binomial_tree_price S K T r sigma n option_type
                else Raise TypeError
            | None => Raise TypeError
            end).
  cbv beta. rewrite !lookup_singleton_eq.
  rewrite !(decide_True
              (P := ({[ "steps" := App.steps inp ]} : gmap string Z)
                    = {[ "steps" := App.steps inp ]})) by done.
  apply except_TypeError_other, pair_not_TypeError;
    apply binomial_tree_price_not_TypeError.
Qed.

(** X15: the TypeError handler of lines 64-67 is never entered for the
    two entries of models: the example prices are those of the first call
    of each pricer, which for binomial_tree_price is made with the slider's
    step count. *)
Theorem app_example_prices_direct (inp : App.inputs) :
  App.example_prices inp App.black_scholes
  = (call_price ← black_scholes_price 100 (App.K inp) (App.T inp) (App.r inp) 0.2
                    "call";
     put_price ← black_scholes_price 100 (App.K inp) (App.T inp) (App.r inp) 0.2
                   "put";
     Return (call_price, put_price)) /\
  App.example_prices inp App.binomial_tree
  = (call_price ← binomial_tree_price 100 (App.K inp) (App.T inp) (App.r inp) 0.2
                    (App.steps inp) "call";
     put_price ← binomial_tree_price 100 (App.K inp) (App.T inp) (App.r inp) 0.2
                   (App.steps inp) "put";
     Return (call_price, put_price)).
Proof.
  split; [apply example_prices_black_scholes
         |apply example_prices_binomial_tree].
Qed.

Lemma black_scholes_price_kind (k : option_kind) S K T r sigma :
  K <> 0 ->
  black_scholes_price S K T r sigma (kind_name k)
  = Return (spec_analytic k S K T r sigma).
Proof. intros HK. rewrite black_scholes_price_nonzero by done. by destruct k. Qed.

Lemma generate_heatmap_raises S_range vol_range K T r model_func model_params
    steps option_type :
  exists e : exn,
    generate_heatmap S_range vol_range K T r model_func model_params steps
      option_type = Raise e.
Proof.
  rewrite generate_heatmap_after_loops.
  destruct (heatmap_prices _ _ _ _ _ _ _ _ _) as [prices|e];
    [by exists (NameError "sns")|by exists e].
Qed.

Lemma generate_heatmap_black_scholes (k : option_kind) S_range vol_range K T r
    model_params steps :
  K <> 0 ->
  generate_heatmap S_range vol_range K T r black_scholes_fn model_params steps
    (Some (kind_name k)) = Raise (NameError "sns").
Proof.
  intros HK. rewrite generate_heatmap_after_loops, heatmap_prices_spec_grid.
  destruct (mapM_returns
              (fun sigma =>
                 mapM (fun S => cell_price black_scholes_fn K T r
                                  (default default_steps steps)
                                  (default default_option_type (Some (kind_name k)))
                                  S sigma) S_range) vol_range) as [prices Hprices].
  { intros sigma _. apply mapM_returns. intros S _.
    by apply (black_scholes_cell_returns k). }
  unfold spec_grid. by rewrite Hprices.
Qed.

Lemma run_script_for_cons_bind {A B} (x : A) (xs : list A) (body : A -> script unit)
    (k : unit -> script B) (shown : list st_event) :
  run_script (script_for (x :: xs) body ≫= k) shown
  = run_script (body x ≫= fun _ => script_for xs body ≫= k) shown.
Proof. cbn [script_for]. apply run_bind_assoc. Qed.

(** X16: for inputs within the widgets' bounds the script shows the
    title, the description, the sidebar header, the section header of the
    Black-Scholes model and the analytic example call price, and then ends
    with the NameError that the first call of generate_heatmap raises. *)
Theorem app_main_aborts (inp : App.inputs) :
  App.in_range inp ->
  run_script (App.main inp) []
  = (app_shown_before_heatmap
       (spec_analytic Call 100 (App.K inp) (App.T inp) (App.r inp) 0.2),
     Raise (NameError "sns")).
Proof.
  intros (_ & _ & _ & _ & Hvol & HK & _).
  assert (HK0 : App.K inp <> 0) by lra.
  destruct (np_linspace_samples (App.vol_min inp) (App.vol_max inp)
              (App.vol_steps inp)) as (l & Hl & _); [lia|].
  unfold App.main. rewrite !run_display. cbv zeta.
  rewrite (run_lift_Return _ l) by exact Hl.
  set (body := App.model_section inp (App.S_range inp) l).
  unfold App.models. rewrite run_script_for_cons_bind.
  change (body App.black_scholes)
    with (App.model_section inp (App.S_range inp) l App.black_scholes).
  unfold App.model_section.
  rewrite run_bind_assoc, run_display.
  rewrite run_bind_assoc.
  rewrite (run_lift_Return _
             (spec_analytic Call 100 (App.K inp) (App.T inp) (App.r inp) 0.2,
              spec_analytic Put 100 (App.K inp) (App.T inp) (App.r inp) 0.2)).
  2:{ rewrite example_prices_black_scholes.
      rewrite (black_scholes_price_kind Call), bind_Return by done.
      by rewrite (black_scholes_price_kind Put), bind_Return by done. }
  rewrite run_bind_assoc, run_display.
  rewrite run_bind_assoc.
  rewrite (run_lift_Raise _ (NameError "sns")).
  2:{ unfold app_heatmap.
      by apply (generate_heatmap_black_scholes Call). }
  reflexivity.
Qed.

Lemma app_main_aborts_witness :
  run_script (App.main App.defaults) []
  = (app_shown_before_heatmap
       (spec_analytic Call 100 (App.K App.defaults) (App.T App.defaults)
          (App.r App.defaults) 0.2),
     Raise (NameError "sns")).
Proof.
  apply (app_main_aborts App.defaults).
  unfold App.in_range. simpl. repeat split; lra || lia.
Defined.

(** X17: for every input the script ends with an exception, and what it
    has shown by then is an initial part of those five items: no figure,
    no put price, no section for the binomial tree and no footer is ever
    shown. *)
Theorem app_main_never_plots (inp : App.inputs) :
  exists (shown : list st_event) (e : exn) (call_price : R),
    run_script (App.main inp) [] = (shown, Raise e) /\
    shown `prefix_of` app_shown_before_heatmap call_price.
Proof.
  unfold App.main. rewrite !run_display. cbv zeta.
  destruct (App.vol_range inp) as [l|e] eqn:Hl.
  - rewrite (run_lift_Return _ l) by done.
    set (body := App.model_section inp (App.S_range inp) l).
    unfold App.models. rewrite run_script_for_cons_bind.
    change (body App.black_scholes)
      with (App.model_section inp (App.S_range inp) l App.black_scholes).
    unfold App.model_section.
    rewrite run_bind_assoc, run_display, run_bind_assoc.
    destruct (App.example_prices inp App.black_scholes) as [[c p]|e] eqn:Hex.
    + rewrite (run_lift_Return _ (c, p)) by done.
      rewrite run_bind_assoc, run_display, run_bind_assoc.
      destruct (generate_heatmap_raises (App.S_range inp) l (App.K inp) (App.T inp)
                  (App.r inp) black_scholes_fn
                  (Some (app_example_params (App.steps inp) black_scholes_fn))
                  None (Some "call")) as [e He].
      rewrite (run_lift_Raise _ e) by exact He.
      exists (app_shown_before_heatmap c), e, c. split; [reflexivity|done].
    + rewrite (run_lift_Raise _ e) by done.
      eexists _, e, 0. split; [reflexivity|].
      by exists [st_success 0].
  - rewrite (run_lift_Raise _ e) by done.
    eexists _, e, 0. split; [reflexivity|].
    by exists [st_subheader "Black-Scholes Model"; st_success 0].
Qed.
